(** * The merge-and-normalise pipeline of [analysis/analysis_spike.py]

    A shallow embedding of the class [SpikeAnalysis]: the conversion of raw
    node ids into processed ones ([__raw_to_processed_nodeids]), the merge of
    the raw NEST output files ([__merge_raw_files]) and the sanity check on
    the merged data ([__first_glance_on_data]).

    Conventions of the embedding.
    - Python and numpy [int64] integers are [Z]; the node id column of the
      record arrays has dtype ['i4'] and is wrapped to 32 bits where the
      source adds to it in place.
    - The ['f8'] columns (spike times, positions, rates) are exact rationals
      [Qc]; binary64 rounding is outside the model.
    - An uncaught Python exception is [Raise]; the files a process has
      written before it raised stay written.
    - MPI is SPMD: every definition that depends on the process takes
      [SIZE] and [RANK]; collectives are modelled on the vector of all
      ranks. *)

From Stdlib Require Import ZArith QArith Qcanon Qround Qabs String Ascii.
From stdpp Require Import base numbers list sorting gmap strings pretty.

Local Open Scope Z_scope.

(** ** Exceptions and results *)

Inductive exn : Type :=
  | IndexError
  | ValueError
  | AttributeError
  | ZeroDivisionError
  | FileNotFoundError.

Inductive outcome (A : Type) : Type :=
  | Ok (a : A)
  | Raise (e : exn).
Arguments Ok {A} a.
Arguments Raise {A} e.

#[global] Instance outcome_ret : MRet outcome := λ A a, Ok a.
#[global] Instance outcome_bind : MBind outcome := λ A B f m,
  match m with
  | Ok a => f a
  | Raise e => Raise e
  end.

#[global] Instance exn_eq_dec : EqDecision exn.
Proof. solve_decision. Defined.

(** Indexing a sequence with a non-negative index. *)
Definition getitem {A} (l : list A) (i : nat) : outcome A :=
  match l !! i with
  | Some a => Ok a
  | None => Raise IndexError
  end.

(** ** The numpy operations the source relies on *)

Module Np.

(** A value stored into an ['i4'] column. *)
Definition int32 (z : Z) : Z := (z + 2 ^ 31) mod 2 ^ 32 - 2 ^ 31.

Definition in_int32 (z : Z) : Prop := - 2 ^ 31 ≤ z < 2 ^ 31.

(** [np.sum] of a one-dimensional integer array. *)
Definition sum (l : list Z) : Z := foldr Z.add 0 l.

(** [np.add] of two one-dimensional arrays, with broadcasting: equal
    lengths, or one operand of length one. *)
Definition add (a b : list Z) : outcome (list Z) :=
  if decide (length a = length b) then Ok (zip_with Z.add a b)
  else match a, b with
       | _, [y] => Ok ((λ x, x + y) <$> a)
       | [x], _ => Ok ((λ y, x + y) <$> b)
       | _, _ => Raise ValueError
       end.

(** [np.c_[a, b]] of two one-dimensional arrays: two columns. *)
Definition c_ (a b : list Z) : outcome (list (Z * Z)) :=
  if decide (length a = length b) then Ok (zip a b) else Raise ValueError.

End Np.

(** ** Parameter dictionaries *)

(** The keys of [net_dict] and [sim_dict] that the class reads. *)
Record net_dict : Type := {
  populations : list string;
  num_neurons : list Z;
  num_pops : nat
}.

Record sim_dict : Type := {
  t_presim : Qc;
  t_sim : Qc;
  fname_nodeids : string
}.

(** ** [__raw_to_processed_nodeids] *)

(** [[1 + np.sum(num_neurons[:i]) for i in np.arange(num_pops)]] *)
Definition first_nodeids_proc (net : net_dict) : list Z :=
  (λ i, 1 + Np.sum (take i (num_neurons net))) <$> seq 0 (num_pops net).

(** [np.c_[first_nodeids_proc, np.add(first_nodeids_proc, num_neurons) - 1]] *)
Definition nodeids_proc (net : net_dict) : outcome (list (Z * Z)) :=
  let first := first_nodeids_proc net in
  added ← Np.add first (num_neurons net);
  Np.c_ first ((λ z, z - 1) <$> added).


(** ** Records of the raw and processed files *)

(** The two values of the parameter [datatype] of [__merge_raw_files]. *)
Inductive datatype : Type :=
  | spike_detector
  | positions.

(** dtype [('nodeid', 'i4'), ('time_ms', 'f8')] *)
Record spike : Type := Spike {
  spike_nodeid : Z;
  time_ms : Qc
}.

(** dtype [('nodeid', 'i4'), ('x-position_mm', 'f8'), ('y-position_mm', 'f8')] *)
Record position : Type := Position {
  position_nodeid : Z;
  x_position_mm : Qc;
  y_position_mm : Qc
}.

Definition row (d : datatype) : Type :=
  match d with
  | spike_detector => spike
  | positions => position
  end.

Definition tab : string := String (ascii_of_nat 9) EmptyString.

Definition datatype_name (d : datatype) : string :=
  match d with
  | spike_detector => "spike_detector"
  | positions => "positions"
  end.

(** [dtype['names']] *)
Definition names (d : datatype) : list string :=
  match d with
  | spike_detector => ["nodeid"; "time_ms"]
  | positions => ["nodeid"; "x-position_mm"; "y-position_mm"]
  end.

Definition nodeid {d : datatype} : row d → Z :=
  match d with
  | spike_detector => spike_nodeid
  | positions => position_nodeid
  end.

(** [comb_data['nodeid'] += shift], on one record: the sum is stored back
    into the ['i4'] column. *)
Definition add_nodeid {d : datatype} (shift : Z) : row d → row d :=
  match d with
  | spike_detector => λ r, Spike (Np.int32 (spike_nodeid r + shift)) (time_ms r)
  | positions => λ r, Position (Np.int32 (position_nodeid r + shift))
                               (x_position_mm r) (y_position_mm r)
  end.

(** [if 'time_ms' in comb_data.dtype.names: comb_data['time_ms'] -= t_presim],
    on one record. *)
Definition sub_t_presim {d : datatype} (presim : Qc) : row d → row d :=
  match d with
  | spike_detector => λ r, Spike (spike_nodeid r) (time_ms r - presim)%Qc
  | positions => λ r, r
  end.

(** The comparison of [np.sort(comb_data, order=sortby)] on a structured
    array: the field [sortby] is compared first and the fields left out of
    [order] break ties, in the order of the dtype.  [sortby] is ['time_ms']
    for spikes and ['nodeid'] for positions. *)
Definition spike_le (a b : spike) : Prop :=
  (time_ms a < time_ms b)%Qc ∨
  (time_ms a = time_ms b ∧ spike_nodeid a ≤ spike_nodeid b).

Definition position_le (a b : position) : Prop :=
  position_nodeid a < position_nodeid b ∨
  (position_nodeid a = position_nodeid b ∧
   ((x_position_mm a < x_position_mm b)%Qc ∨
    (x_position_mm a = x_position_mm b ∧
     (y_position_mm a ≤ y_position_mm b)%Qc))).

Definition row_le (d : datatype) : relation (row d) :=
  match d with
  | spike_detector => spike_le
  | positions => position_le
  end.

#[global] Instance spike_le_dec : RelDecision spike_le.
Proof. intros a b. unfold spike_le. apply _. Defined.

#[global] Instance position_le_dec : RelDecision position_le.
Proof. intros a b. unfold position_le. apply _. Defined.

#[global] Instance row_le_dec (d : datatype) : RelDecision (row_le d).
Proof. destruct d; simpl; apply _. Defined.

(** The order compares whole records and is total, so the sorted array does
    not depend on the sorting algorithm numpy picks. *)
Definition np_sort (d : datatype) (rows : list (row d)) : list (row d) :=
  merge_sort (row_le d) rows.

(** ** Text of the processed files *)

(** Rounding to the nearest integer, ties to even. *)
Definition round_half_even (q : Q) : Z :=
  let fl := Qfloor q in
  match Qcompare (q - inject_Z fl) (1 # 2) with
  | Lt => fl
  | Gt => fl + 1
  | Eq => if Z.even fl then fl else fl + 1
  end.

Fixpoint zeros (n : nat) : string :=
  match n with
  | O => ""
  | S n => "0" +:+ zeros n
  end.

Definition zero_pad (width : nat) (s : string) : string :=
  zeros (width - String.length s) +:+ s.

(** ['%.<digits>f' % q] *)
Definition format_f (digits : nat) (q : Qc) : string :=
  let scale := 10 ^ Z.of_nat digits in
  let n := round_half_even (Qabs (this q) * inject_Z scale) in
  (if decide (q < Q2Qc 0)%Qc then "-" else "")
  +:+ pretty (n / scale) +:+ "." +:+ zero_pad digits (pretty (n mod scale)).

(** One line of [np.savetxt(..., delimiter='\t', fmt=fmt)]: [fmt] is
    [['%d', '%.3f']] for spikes and [['%d', '%f', '%f']] for positions. *)
Definition format_row {d : datatype} : row d → string :=
  match d with
  | spike_detector => λ r,
      pretty (spike_nodeid r) +:+ tab +:+ format_f 3 (time_ms r)
  | positions => λ r,
      pretty (position_nodeid r) +:+ tab +:+ format_f 6 (x_position_mm r)
      +:+ tab +:+ format_f 6 (y_position_mm r)
  end.

(** [header = '\t '.join(dtype['names'])], written by [np.savetxt] behind
    its comment prefix ['# ']. *)
Definition header (d : datatype) : string :=
  "# " +:+ String.concat (tab +:+ " ") (names d).

(** ** Files *)

(** A raw file as [np.loadtxt] reads it with the dtype of its kind, the
    header rows skipped. *)
Inductive raw_file : Type :=
  | SpikeFile (rows : list spike)
  | PositionFile (rows : list position).

(** The two directories [sim_dict['path_raw_data']] and
    [sim_dict['path_processed_data']], which are different directories:
    file name to content, the processed files as lines of text. *)
Record fs : Type := Fs {
  path_raw_data : gmap string raw_file;
  path_processed_data : gmap string (list string)
}.

(** A computation of one process: it may read and write files, and it
    returns or raises. *)
Definition M (A : Type) : Type := fs → fs * outcome A.

#[global] Instance M_ret : MRet M := λ A a s, (s, Ok a).
#[global] Instance M_bind : MBind M := λ A B f m s,
  match m s with
  | (s', Ok a) => f a s'
  | (s', Raise e) => (s', Raise e)
  end.

Definition lift {A} (o : outcome A) : M A := λ s, (s, o).

Definition raise {A} (e : exn) : M A := lift (Raise e).

Fixpoint for_each {A} (l : list A) (body : A → M unit) : M unit :=
  match l with
  | [] => mret ()
  | x :: l => body x ≫= λ _, for_each l body
  end.

Fixpoint enumerate_from {A} (i : nat) (l : list A) : list (nat * A) :=
  match l with
  | [] => []
  | x :: l => (i, x) :: enumerate_from (S i) l
  end.

Definition enumerate {A} (l : list A) : list (nat * A) := enumerate_from 0 l.

(** [s.endswith(suffix)] *)
Definition ends_with (suffix s : string) : bool :=
  String.prefix (String.rev suffix) (String.rev s).

(** [fnmatch(name, prefix + '*.dat')], for a prefix without wildcard
    characters. *)
Definition matches (prefix name : string) : bool :=
  String.prefix prefix name && ends_with ".dat" name
  && bool_decide (String.length prefix + 4 ≤ String.length name)%nat.

(** [glob.glob(os.path.join(path_raw_data, prefix + '*.dat'))] *)
Definition glob (prefix : string) : M (list string) := λ s,
  (s, Ok (filter (λ name, matches prefix name = true)
                 (fst <$> map_to_list (path_raw_data s)))).

(** The rows of a raw file under the dtype of [d]: a file of the other kind
    does not parse. *)
Definition parse (d : datatype) (f : raw_file) : outcome (list (row d)) :=
  match d return outcome (list (row d)) with
  | spike_detector =>
      match f with SpikeFile rows => Ok rows | _ => Raise ValueError end
  | positions =>
      match f with PositionFile rows => Ok rows | _ => Raise ValueError end
  end.

(** [np.loadtxt(fn, skiprows=skiprows, dtype=dtype)] *)
Definition loadtxt (d : datatype) (fn : string) : M (list (row d)) := λ s,
  (s, match path_raw_data s !! fn with
      | None => Raise FileNotFoundError
      | Some f => parse d f
      end).

(** Writing a processed file replaces what was there. *)
Definition write_processed (fn : string) (lines : list string) : M unit := λ s,
  (Fs (path_raw_data s) (<[fn := lines]> (path_processed_data s)), Ok ()).

(** [open(fn)] on a processed file, as its lines. *)
Definition read_processed (fn : string) : M (list string) := λ s,
  (s, match path_processed_data s !! fn with
      | Some lines => Ok lines
      | None => Raise FileNotFoundError
      end).

(** [comb_data]: [np.array([[]], dtype=dtype)] has shape (1, 0); the first
    [np.append] flattens it to one dimension. *)
Inductive ndarray (A : Type) : Type :=
  | Empty2D
  | Flat (rows : list A).
Arguments Empty2D {A}.
Arguments Flat {A} rows.

Definition np_append {A} (a : ndarray A) (data : list A) : ndarray A :=
  match a with
  | Empty2D => Flat data
  | Flat rows => Flat (rows ++ data)
  end.

Definition np_map {A} (f : list A → list A) (a : ndarray A) : ndarray A :=
  match a with
  | Empty2D => Empty2D
  | Flat rows => Flat (f rows)
  end.

(** [np.savetxt(fn, comb_data, delimiter='\t', header=header, fmt=fmt)]:
    the file is created first; a two-dimensional array has as many columns
    as its second axis is long, here none, which the list [fmt] does not
    fit. *)
Definition savetxt {d : datatype} (fn : string) (a : ndarray (row d)) : M unit :=
  match a with
  | Empty2D => write_processed fn [] ≫= λ _, raise AttributeError
  | Flat rows => write_processed fn (header d :: (format_row <$> rows))
  end.

(** ** [__merge_raw_files] *)

(** The three in-place steps on the combined records of one population. *)
Definition process_rows (d : datatype) (first_raw first_proc : Z)
    (presim : Qc) (rows : list (row d)) : list (row d) :=
  np_sort d (sub_t_presim presim <$>
             (add_nodeid (- first_raw + first_proc) <$> rows)).

(** The loop over [single_files]. *)
Fixpoint load_all (d : datatype) (comb_data : ndarray (row d))
    (single_files : list string) : M (ndarray (row d)) :=
  match single_files with
  | [] => mret comb_data
  | fn :: rest =>
      loadtxt d fn ≫= λ data, load_all d (np_append comb_data data) rest
  end.

(** The body of the loop over the populations, for an owned population. *)
Definition merge_population (sim : sim_dict)
    (nodeids_raw nodeids_proc : list (Z * Z)) (d : datatype)
    (ipop : nat) (X : string) : M unit :=
  single_files ← glob (datatype_name d +:+ "_" +:+ X);
  comb_data ← load_all d Empty2D single_files;
  raw ← lift (getitem nodeids_raw ipop);
  proc ← lift (getitem nodeids_proc ipop);
  savetxt (datatype_name d +:+ "_" +:+ X +:+ ".dat")
          (np_map (process_rows d raw.1 proc.1 (t_presim sim)) comb_data).

(** [for ipop, X in enumerate(self.X): if ipop % SIZE == RANK: ...] on the
    process [RANK] of [SIZE]. *)
Definition merge_raw_files (SIZE RANK : nat) (sim : sim_dict) (net : net_dict)
    (nodeids_raw nodeids_proc : list (Z * Z)) (d : datatype) : M unit :=
  for_each (enumerate (populations net)) (λ '(ipop, X),
    if decide (ipop mod SIZE = RANK)%nat
    then merge_population sim nodeids_raw nodeids_proc d ipop X
    else mret ()).


(** ** The processes of a run *)

(** The results of all processes, or the exception of the first process
    that raised. *)
Fixpoint sequence_outcomes {A} (os : list (outcome A)) : outcome (list A) :=
  match os with
  | [] => Ok []
  | o :: os => a ← o; l ← sequence_outcomes os; Ok (a :: l)
  end.

(** Every process of [ranks] runs [prog], up to the [COMM.barrier()] that
    ends the phase; the processes write different files, so their writes
    accumulate in any order, here the order of the ranks. *)
Fixpoint run_ranks {A} (prog : nat → M A) (ranks : list nat) (s : fs)
  : fs * list (outcome A) :=
  match ranks with
  | [] => (s, [])
  | r :: ranks =>
      let '(s1, o) := prog r s in
      let '(s2, os) := run_ranks prog ranks s1 in
      (s2, o :: os)
  end.

(** One phase of the run on [SIZE] processes. *)
Definition spmd {A} (SIZE : nat) (prog : nat → M A) : M (list A) := λ s,
  let '(s', os) := run_ranks prog (seq 0 SIZE) s in
  (s', sequence_outcomes os).

(** ** [__first_glance_on_data] *)

(** [int(len(self.X) / SIZE)] *)
Definition block_size (net : net_dict) (SIZE : nat) : nat :=
  (length (populations net) / SIZE)%nat.

(** A true division of Python numbers. *)
Definition truediv (a b : Qc) : outcome Qc :=
  if decide (b = Q2Qc 0) then Raise ZeroDivisionError else Ok (a / b)%Qc.

(** The body of the loop over the populations: [int(ipop / block_size)]
    divides before it compares. *)
Definition rate_step (SIZE RANK : nat) (sim : sim_dict) (net : net_dict)
    (local_rates : list Qc) (ipop : nat) (X : string) : M (list Qc) :=
  let bs := block_size net SIZE in
  if decide (bs = 0)%nat then raise ZeroDivisionError
  else if decide (ipop / bs = RANK)%nat then
    lines ← read_processed ("spike_detector_" +:+ X +:+ ".dat");
    let num_spikes := Qc_of_Z (Z.of_nat (length lines)) in
    n ← lift (getitem (num_neurons net) ipop);
    per_neuron ← lift (truediv num_spikes (Qc_of_Z n));
    rate ← lift (truediv per_neuron (t_sim sim * Q2Qc (1 # 1000))%Qc);
    mret (<[(ipop mod bs)%nat := rate]> local_rates)
  else mret local_rates.

Fixpoint rate_loop (SIZE RANK : nat) (sim : sim_dict) (net : net_dict)
    (local_rates : list Qc) (pops : list (nat * string)) : M (list Qc) :=
  match pops with
  | [] => mret local_rates
  | (ipop, X) :: pops =>
      rate_step SIZE RANK sim net local_rates ipop X ≫= λ local_rates,
      rate_loop SIZE RANK sim net local_rates pops
  end.

(** [local_rates] of the process [RANK], from [np.zeros(block_size)]. *)
Definition local_rates (SIZE RANK : nat) (sim : sim_dict) (net : net_dict)
  : M (list Qc) :=
  rate_loop SIZE RANK sim net
            (replicate (block_size net SIZE) (Q2Qc 0))
            (enumerate (populations net)).

(** [COMM.Allgather(local_rates, rates)] followed by
    [rates = rates[:len(self.X)]]. *)
Definition rates (SIZE : nat) (sim : sim_dict) (net : net_dict) : M (list Qc) :=
  gathered ← spmd SIZE (λ RANK, local_rates SIZE RANK sim net);
  mret (take (length (populations net)) (concat gathered)).

(** One row of the overview [ov]. *)
Record overview_row : Type := OverviewRow {
  ov_population : string;
  ov_num_neurons : Z;
  ov_rate : Qc;
  ov_first_id : Z;
  ov_last_id : Z
}.

(** [ov[field] = values] for [ov] of shape (n,): the lengths agree, or a
    single value is broadcast. *)
Definition assign_column {A} (n : nat) (values : list A) : outcome (list A) :=
  if decide (length values = n) then Ok values
  else match values with
       | [v] => Ok (replicate n v)
       | _ => Raise ValueError
       end.

Definition take_string (n : nat) (s : string) : string :=
  String.substring 0 n s.

Fixpoint overview_rows (pop : list string) (num rate first last : list _)
  : list overview_row :=
  match pop, num, rate, first, last with
  | p :: pop, n :: num, r :: rate, f :: first, l :: last =>
      OverviewRow p n r f l :: overview_rows pop num rate first last
  | _, _, _, _, _ => []
  end.

(** The table every process assembles from the gathered rates. *)
Definition overview (net : net_dict) (nodeids_proc : list (Z * Z))
    (rates : list Qc) : outcome (list overview_row) :=
  let n := length (populations net) in
  num ← assign_column n (Np.int32 <$> num_neurons net);
  rate ← assign_column n rates;
  first ← assign_column n (Np.int32 ∘ fst <$> nodeids_proc);
  last ← assign_column n (Np.int32 ∘ snd <$> nodeids_proc);
  Ok (overview_rows (take_string 4 <$> populations net) num rate first last).

Definition first_glance_on_data (SIZE : nat) (sim : sim_dict) (net : net_dict)
    (nodeids_proc : list (Z * Z)) : M (list overview_row) :=
  r ← rates SIZE sim net;
  lift (overview net nodeids_proc r).

(** ** [__init__] *)



(** ** Inputs of the scenarios *)

(** The decimal [n / d] as a time or a coordinate. *)
Definition decimal (n : Z) (d : positive) : Qc := Q2Qc (n # d).

(** A pre-simulation of 100 ms followed by a simulation of 1000 ms. *)
Definition scenario_sim : sim_dict :=
  {| t_presim := decimal 100 1; t_sim := decimal 1000 1;
     fname_nodeids := "population_nodeids.dat" |}.

(** One raw spike file with the rows (15, 105.0) and (12, 103.2). *)
Definition scenario_B_fs : fs :=
  Fs {[ "spike_detector_L23E-09-0.dat" :=
          SpikeFile [Spike 15 (decimal 105 1); Spike 12 (decimal 1032 10)] ]}
     ∅.

(** One population of ten neurons whose only raw spike file has no row,
    next to its position file. *)
Definition scenario_net1 : net_dict :=
  {| populations := ["L23E"]; num_neurons := [10]; num_pops := 1 |}.

Definition scenario_silent_fs : fs :=
  Fs {[ "spike_detector_L23E-09-0.dat" := SpikeFile [];
        "positions_L23E-0.dat" :=
          PositionFile [Position 11 (decimal 1 2) (decimal (-1) 4)] ]}
     ∅.

(** Two populations of ten neurons each. *)
Definition scenario_net2 : net_dict :=
  {| populations := ["L23E"; "L23I"]; num_neurons := [10; 10]; num_pops := 2 |}.

(** No population at all. *)
Definition scenario_net0 : net_dict :=
  {| populations := []; num_neurons := []; num_pops := 0 |}.

(** The eight populations of the microcircuit, ten neurons each, with merged
    spike files that hold the header only. *)
Definition scenario_net8 : net_dict :=
  {| populations := ["L23E"; "L23I"; "L4E"; "L4I"; "L5E"; "L5I"; "L6E"; "L6I"];
     num_neurons := [10; 10; 10; 10; 10; 10; 10; 10];
     num_pops := 8 |}.

Definition scenario_merged8_fs : fs :=
  Fs ∅ (list_to_map
          ((λ X, ("spike_detector_" +:+ X +:+ ".dat", [header spike_detector]))
             <$> populations scenario_net8)).

(** ** Tie-breaking as the specification words it *)

(** "Ties broken by file-arrival order": among the records of any one time,
    the sorted array keeps the order of [comb_data]. *)
Definition arrival_order_on_ties (comb_data sorted : list spike) : Prop :=
  ∀ t : Qc,
    filter (λ r, time_ms r = t) sorted = filter (λ r, time_ms r = t) comb_data.

(** ** Programs that only write processed files *)


(** ** The rate of one population *)

(** What the body of the loop of [__first_glance_on_data] computes for an
    owned population: the number of lines of its merged spike file, over
    its number of neurons, over the simulation time in seconds. *)
Definition population_rate (sim : sim_dict) (net : net_dict) (s : fs)
    (ipop : nat) (X : string) : outcome Qc :=
  match path_processed_data s !! ("spike_detector_" +:+ X +:+ ".dat") with
  | None => Raise FileNotFoundError
  | Some lines =>
      n ← getitem (num_neurons net) ipop;
      per_neuron ← truediv (Qc_of_Z (Z.of_nat (length lines))) (Qc_of_Z n);
      truediv per_neuron (t_sim sim * Q2Qc (1 # 1000))%Qc
  end.

(** ** The bins of [__init__] *)






(** ** [Network.__setup_nest]: the seeds *)




(** ** [Network.__create_thalamic_stim_input]: the pulses *)


(** ** The raw node id file as [np.loadtxt] returns it *)

(** [np.loadtxt(fname, dtype=int)] squeezes axes of length one: a file of
    one row "first last" is a one-dimensional array of two numbers, an
    empty file a one-dimensional array of none; from two rows on the array
    is two-dimensional. *)
Inductive nodeids_array : Type :=
  | Ids1D (ids : list Z)
  | Ids2D (rows : list (Z * Z)).

Definition loadtxt_nodeids (rows : list (Z * Z)) : nodeids_array :=
  match rows with
  | [] => Ids1D []
  | [(first, last)] => Ids1D [first; last]
  | _ => Ids2D rows
  end.

(** [nodeids_raw[ipop][0]]: an entry of a one-dimensional array is a
    number, which cannot be indexed. *)
Definition first_raw_id (nodeids_raw : nodeids_array) (ipop : nat) : outcome Z :=
  match nodeids_raw with
  | Ids1D ids => _ ← getitem ids ipop; Raise IndexError
  | Ids2D rows => row ← getitem rows ipop; Ok row.1
  end.

(** ** [Network.__connect_neuronal_populations] *)

(** The keys of [net_dict] that the function reads; the matrices are
    indexed [target][source]. *)
Record conn_dict : Type := {
  num_synapses : list (list Qc);
  indegrees : list (list Qc);
  beta : list (list Qc);
  p0 : list (list Qc);
  weight_matrix_mean : list (list Qc);
  delay_matrix_mean : list (list Qc);
  delay_offset_matrix : list (list Qc);
  prop_speed_matrix : list (list Qc);
  repeat_connect : list (list Z);
  connect_method : string;
  delay_type : string;
  net_extent : Qc;
  weight_rel_std : Qc;
  delay_rel_std : Qc;
  delay_lin_rel_std : Qc
}.

(** What the function can raise: an index out of a matrix, the exception
    ['connect_method is incorrect.'], and the unbound local variable
    [delay_param]. *)
Inductive conn_exn : Type :=
  | MatrixIndexError
  | ConnectMethodIncorrect
  | UnboundLocalError.

Inductive conn_result (A : Type) : Type :=
  | Done (a : A)
  | Fail (e : conn_exn).
Arguments Done {A} a.
Arguments Fail {A} e.

#[global] Instance conn_result_ret : MRet conn_result := λ A a, Done a.
#[global] Instance conn_result_bind : MBind conn_result := λ A B f m,
  match m with
  | Done a => f a
  | Fail e => Fail e
  end.

(** [matrix[i][j]] *)
Definition entry {A} (matrix : list (list A)) (i j : nat) : conn_result A :=
  match matrix !! i with
  | Some row =>
      match row !! j with
      | Some a => Done a
      | None => Fail MatrixIndexError
      end
  | None => Fail MatrixIndexError
  end.

(** A bound of [nest.math.redraw]: [np.NINF], a number, or [np.Inf]. *)
Inductive redraw_bound : Type :=
  | NINF
  | Finite (q : Qc)
  | Inf.

(** [conn_dict_rec], with the spatial profile
    [scale * exponential(x=distance, beta=beta)] and the radius of the
    circular mask where the method has them. *)
Record conn_spec : Type := {
  rule : string;
  spec_N : option Qc;
  spec_indegree : option Qc;
  spec_p : option (Qc * Qc);
  mask_radius : option Qc;
  allow_autapses : bool;
  allow_multapses : bool
}.

(** [delay_param]: a normal distribution, or the linear profile
    [(offset + distance / speed) * normal(1, std)]. *)
Inductive delay_spec : Type :=
  | NormalDelay (mean std : Qc)
  | LinearDelay (offset speed std : Qc).

(** [syn_dict] *)
Record syn_spec : Type := {
  weight_mean : Qc;
  weight_std : Qc;
  weight_min : redraw_bound;
  weight_max : redraw_bound;
  delay : delay_spec;
  delay_min : Qc;
  delay_max : redraw_bound
}.

(** One call [nest.Connect(source_pop, target_pop, conn_spec, syn_spec)]. *)
Record connect_call : Type := {
  source : nat;
  target : nat;
  call_conn : conn_spec;
  call_syn : syn_spec
}.

(** The branches on [connect_method], followed by the update with
    [allow_autapses] and [allow_multapses]. *)
Definition conn_dict_rec (net : conn_dict) (i j : nat) : conn_result conn_spec :=
  let m := connect_method net in
  if decide (m = "fixedtotalnumber") then
    N ← entry (num_synapses net) i j;
    Done {| rule := "fixed_total_number"; spec_N := Some N;
            spec_indegree := None; spec_p := None; mask_radius := None;
            allow_autapses := false; allow_multapses := true |}
  else if decide (m = "fixedindegree") then
    k ← entry (indegrees net) i j;
    Done {| rule := "fixed_indegree"; spec_N := None;
            spec_indegree := Some k; spec_p := None; mask_radius := None;
            allow_autapses := false; allow_multapses := true |}
  else if decide (m = "fixedindegree_exp") then
    k ← entry (indegrees net) i j;
    b ← entry (beta net) i j;
    Done {| rule := "fixed_indegree"; spec_N := None;
            spec_indegree := Some k; spec_p := Some (Q2Qc 1, b);
            mask_radius := Some (net_extent net / Q2Qc 2)%Qc;
            allow_autapses := false; allow_multapses := true |}
  else if decide (m = "distr_indegree_exp") then
    p ← entry (p0 net) i j;
    b ← entry (beta net) i j;
    Done {| rule := "pairwise_bernoulli"; spec_N := None;
            spec_indegree := None; spec_p := Some (p, b);
            mask_radius := Some (net_extent net / Q2Qc 2)%Qc;
            allow_autapses := false; allow_multapses := true |}
  else Fail ConnectMethodIncorrect.

(** The branches on [delay_type]; with another value [delay_param] stays
    unbound. *)
Definition delay_param (net : conn_dict) (i j : nat)
  : conn_result (option delay_spec) :=
  if decide (delay_type net = "normal") then
    mean ← entry (delay_matrix_mean net) i j;
    Done (Some (NormalDelay mean (mean * delay_rel_std net)%Qc))
  else if decide (delay_type net = "linear") then
    offset ← entry (delay_offset_matrix net) i j;
    speed ← entry (prop_speed_matrix net) i j;
    Done (Some (LinearDelay offset speed (delay_lin_rel_std net)))
  else Done None.

Definition Qc_abs (q : Qc) : Qc :=
  if decide (q < Q2Qc 0)%Qc then (- q)%Qc else q.

(** The body of the two loops for the pair of the target [i] and the
    source [j]: the calls it issues, or what it raises. *)
Definition connect_pair (net : conn_dict) (sim_resolution : Qc) (i j : nat)
  : conn_result (list connect_call) :=
  n ← entry (num_synapses net) i j;
  if decide (Q2Qc 0 ≤ n)%Qc then
    conn ← conn_dict_rec net i j;
    w ← entry (weight_matrix_mean net) i j;
    let '(w_min, w_max) :=
      if decide (w < Q2Qc 0)%Qc then (NINF, Finite (Q2Qc 0))
      else (Finite (Q2Qc 0), Inf) in
    d ← delay_param net i j;
    match d with
    | None => Fail UnboundLocalError
    | Some d =>
        let syn := {| weight_mean := w;
                      weight_std := Qc_abs (w * weight_rel_std net)%Qc;
                      weight_min := w_min; weight_max := w_max;
                      delay := d; delay_min := sim_resolution;
                      delay_max := Inf |} in
        r ← entry (repeat_connect net) i j;
        Done (replicate (Z.to_nat r)
                {| source := j; target := i;
                   call_conn := conn; call_syn := syn |})
    end
  else Done [].

(** The two loops over [enumerate(self.pops)], as the list of the pairs
    they visit; the calls issued so far stay issued when a pair raises. *)
Fixpoint connect_pairs (net : conn_dict) (sim_resolution : Qc)
    (pairs : list (nat * nat)) (issued : list connect_call)
  : list connect_call * conn_result unit :=
  match pairs with
  | [] => (issued, Done ())
  | (i, j) :: pairs =>
      match connect_pair net sim_resolution i j with
      | Done calls =>
          connect_pairs net sim_resolution pairs (issued ++ calls)
      | Fail e => (issued, Fail e)
      end
  end.

Definition loop_pairs (num_pops : nat) : list (nat * nat) :=
  i ← seq 0 num_pops; j ← seq 0 num_pops; [(i, j)].

Definition connect_neuronal_populations (net : conn_dict)
    (sim_resolution : Qc) (num_pops : nat)
  : list connect_call * conn_result unit :=
  connect_pairs net sim_resolution (loop_pairs num_pops) [].

(** [a <= b] on bounds. *)
Definition bound_le (a b : redraw_bound) : Prop :=
  match a, b with
  | NINF, _ => True
  | _, Inf => True
  | Finite x, Finite y => (x ≤ y)%Qc
  | _, _ => False
  end.

(** The calls of a trace that connect the source [j] to the target [i]. *)
Definition calls_between (i j : nat) (trace : list connect_call)
  : list connect_call :=
  filter (λ c, target c = i ∧ source c = j) trace.

(** Two populations, an excitatory and an inhibitory one; the inhibitory
    population gets no input from itself, and the inhibitory input of the
    excitatory population is connected twice. *)
Definition scenario_conn_with (method dtype : string) : conn_dict :=
  {| num_synapses := [[decimal 1000 1; decimal 500 1];
                      [decimal 800 1; decimal (-1) 1]];
     indegrees := [[decimal 100 1; decimal 50 1];
                   [decimal 80 1; decimal 0 1]];
     beta := [[decimal 1 5; decimal 1 10]; [decimal 1 5; decimal 1 10]];
     p0 := [[decimal 1 10; decimal 1 10]; [decimal 1 10; decimal 1 10]];
     weight_matrix_mean := [[decimal 878 10; decimal (-3512) 10];
                            [decimal 878 10; decimal (-3512) 10]];
     delay_matrix_mean := [[decimal 3 2; decimal 3 4]; [decimal 3 2; decimal 3 4]];
     delay_offset_matrix := [[decimal 1 2; decimal 1 2]; [decimal 1 2; decimal 1 2]];
     prop_speed_matrix := [[decimal 3 10; decimal 3 10]; [decimal 3 10; decimal 3 10]];
     repeat_connect := [[1; 2]; [1; 1]];
     connect_method := method;
     delay_type := dtype;
     net_extent := decimal 4 1;
     weight_rel_std := decimal 1 10;
     delay_rel_std := decimal 1 2;
     delay_lin_rel_std := decimal 1 10 |}.

Definition scenario_conn : conn_dict :=
  scenario_conn_with "fixedindegree" "normal".

(** ** The files of the spike recorders *)

(** [sd_labels]: the label of the spike recorder of a population. *)
Definition sd_label (pop : string) : string := "spike_recorder_" +:+ pop.

(** The values that the simulation gives to the kernel's [data_prefix]. *)
Definition data_prefixes : list string := ["presim_"; "sim_"].

(** The call that connects the inhibitory population of the scenario to
    the excitatory one, at a resolution of 0.1 ms. *)
Definition scenario_call : connect_call :=
  {| source := 1%nat; target := 0%nat;
     call_conn := {| rule := "fixed_indegree"; spec_N := None;
                     spec_indegree := Some (decimal 50 1);
                     spec_p := None; mask_radius := None;
                     allow_autapses := false;
                     allow_multapses := true |};
     call_syn := {| weight_mean := decimal (-3512) 10;
                    weight_std := decimal 3512 100;
                    weight_min := NINF;
                    weight_max := Finite (Q2Qc 0);
                    delay := NormalDelay (decimal 3 4) (decimal 3 8);
                    delay_min := decimal 1 10;
                    delay_max := Inf |} |}.

(** * Properties *)

(** ** The processed table *)

Section ProcessedTable.






End ProcessedTable.



(** ** The order of [np.sort] *)

Section SortOrder.

Lemma Qc_trichotomy (x y : Qc) : (x < y)%Qc ∨ x = y ∨ (y < x)%Qc.
Proof. destruct (Qc_dec x y) as [[H|H]|H]; auto. Qed.

Lemma Qclt_asym (x y : Qc) : (x < y)%Qc → (y < x)%Qc → False.
Proof. intros H1 H2. apply (Qclt_not_le _ _ H1), Qclt_le_weak, H2. Qed.

Lemma Qclt_irrefl (x : Qc) : ¬ (x < x)%Qc.
Proof. intros H. exact (Qclt_asym _ _ H H). Qed.

Lemma spike_le_total : Total spike_le.
Proof.
  intros [i t] [j u]. unfold spike_le; simpl.
  destruct (Qc_trichotomy t u) as [H|[->|H]]; auto.
  destruct (Z.le_ge_cases i j); [left|right]; right; split; auto; lia.
Qed.

Lemma spike_le_trans : Transitive spike_le.
Proof.
  intros [i t] [j u] [k v]. unfold spike_le; simpl.
  intros [H1|[-> H1]] [H2|[-> H2]]; auto.
  - left. by eapply Qclt_trans.
  - right. split; [done | lia].
Qed.

Lemma spike_le_antisym : AntiSymm (=) spike_le.
Proof.
  intros [i t] [j u]. unfold spike_le; simpl.
  intros [H1|[-> H1]] [H2|[H H2]].
  - by destruct (Qclt_asym _ _ H1 H2).
  - subst. by destruct (Qclt_irrefl _ H1).
  - by destruct (Qclt_irrefl _ H2).
  - f_equal. lia.
Qed.

Lemma position_le_total : Total position_le.
Proof.
  intros [i x y] [j x' y']. unfold position_le; simpl.
  destruct (Z.lt_trichotomy i j) as [H|[->|H]]; auto.
  destruct (Qc_trichotomy x x') as [H|[->|H]]; auto.
  destruct (Qc_le_total y y'); [left|right]; right; split; auto.
Qed.

Lemma position_le_trans : Transitive position_le.
Proof.
  intros [i x y] [j x' y'] [k x'' y'']. unfold position_le; simpl.
  intros [H1|[-> [H1|[-> H1]]]] [H2|[-> [H2|[-> H2]]]]; auto.
  - left. lia.
  - right. split; [done|]. left. by eapply Qclt_trans.
  - right. split; [done|]. right. split; [done|]. by eapply Qcle_trans.
Qed.

Lemma position_le_antisym : AntiSymm (=) position_le.
Proof.
  intros [i x y] [j x' y']. unfold position_le; simpl.
  intros [H1|[-> [H1|[-> H1]]]] [H2|[H [H2|[H' H2]]]]; subst; try lia.
  - by destruct (Qclt_asym _ _ H1 H2).
  - by destruct (Qclt_irrefl _ H1).
  - by destruct (Qclt_irrefl _ H2).
  - f_equal. by apply Qcle_antisym.
Qed.

Lemma row_le_total (d : datatype) : Total (row_le d).
Proof. destruct d; [apply spike_le_total | apply position_le_total]. Qed.

Lemma row_le_trans (d : datatype) : Transitive (row_le d).
Proof. destruct d; [apply spike_le_trans | apply position_le_trans]. Qed.

Lemma row_le_antisym (d : datatype) : AntiSymm (=) (row_le d).
Proof. destruct d; [apply spike_le_antisym | apply position_le_antisym]. Qed.

Lemma np_sort_Permutation (d : datatype) (rows : list (row d)) :
  np_sort d rows ≡ₚ rows.
Proof. apply merge_sort_Permutation. Qed.

Lemma np_sort_StronglySorted (d : datatype) (rows : list (row d)) :
  StronglySorted (row_le d) (np_sort d rows).
Proof.
  apply (@StronglySorted_merge_sort _ _ _ (row_le_trans d) (row_le_total d)).
Qed.

(** Any other way of sorting the records gives the same array. *)
Lemma np_sort_unique (d : datatype) (rows sorted : list (row d)) :
  sorted ≡ₚ rows → StronglySorted (row_le d) sorted → sorted = np_sort d rows.
Proof.
  intros Hp Hs.
  apply (@StronglySorted_unique _ _ (row_le_antisym d)); [done | |].
  - apply np_sort_StronglySorted.
  - by rewrite np_sort_Permutation.
Qed.


Lemma StronglySorted_lookup {A} (R : relation A) (l : list A) (i j : nat) a b :
  StronglySorted R l → (i < j)%nat → l !! i = Some a → l !! j = Some b → R a b.
Proof.
  intros Hs. revert i j a b.
  induction Hs as [|x l Hl IH Hx]; intros i j a b Hij Hi Hj.
  - done.
  - destruct j as [|j]; [lia|]. destruct i as [|i]; simpl in *.
    + injection Hi as ->. rewrite Forall_forall in Hx. apply Hx.
      eapply list_elem_of_lookup_2; eauto.
    + apply (IH i j); [lia | done | done].
Qed.

End SortOrder.

(** ** One population of [__merge_raw_files] *)

Section MergePopulation.


Lemma int32_range (z : Z) : Np.in_int32 (Np.int32 z).
Proof.
  unfold Np.in_int32, Np.int32.
  pose proof (Z.mod_pos_bound (z + 2 ^ 31) (2 ^ 32) ltac:(lia)). lia.
Qed.





(** Without any raw file [comb_data] stays two-dimensional and
    [np.savetxt] raises, leaving an empty file behind. *)
Lemma merge_population_no_files (sim : sim_dict)
    (nodeids_raw nodeids_proc : list (Z * Z)) (d : datatype)
    (ipop : nat) (X : string) (raw proc : Z * Z) (s : fs) :
  nodeids_raw !! ipop = Some raw →
  nodeids_proc !! ipop = Some proc →
  glob (datatype_name d +:+ "_" +:+ X) s = (s, Ok []) →
  merge_population sim nodeids_raw nodeids_proc d ipop X s
  = (Fs (path_raw_data s)
        (<[datatype_name d +:+ "_" +:+ X +:+ ".dat" := []]>
           (path_processed_data s)),
     Raise AttributeError).
Proof.
  intros Hraw Hproc Hglob.
  unfold merge_population, mbind, M_bind. rewrite Hglob. simpl.
  unfold lift, getitem, mret, M_ret. rewrite Hraw, Hproc. reflexivity.
Qed.


Lemma process_rows_StronglySorted (d : datatype) (first_raw first_proc : Z)
    (presim : Qc) (rows : list (row d)) :
  StronglySorted (row_le d) (process_rows d first_raw first_proc presim rows).
Proof. apply np_sort_StronglySorted. Qed.

Lemma spike_le_time (a b : spike) : spike_le a b → (time_ms a ≤ time_ms b)%Qc.
Proof.
  intros [H|[-> _]]; [by apply Qclt_le_weak | apply Qcle_refl].
Qed.


End MergePopulation.



(** ** Ties of the sort *)

(** C7, as stated, fails: of the rows (15, 105.0) and (12, 105.0), arriving
    in this order, the second comes first in the merged file. *)
Lemma sort_ties_not_in_arrival_order :
  ¬ arrival_order_on_ties
      (sub_t_presim (d:=spike_detector) (decimal 100 1)
         <$> (add_nodeid (d:=spike_detector) (- 10 + 1)
                <$> [Spike 15 (decimal 105 1); Spike 12 (decimal 105 1)]))
      (process_rows spike_detector 10 1 (decimal 100 1)
         [Spike 15 (decimal 105 1); Spike 12 (decimal 105 1)]).
Proof.
  intros H. specialize (H (decimal 5 1)).
  apply (f_equal (fmap spike_nodeid)) in H.
  vm_compute in H. discriminate H.
Qed.

(** C7, amended.  The merged spikes are ordered by time and, among spikes
    of one time, by ascending node id; two spikes equal in both are the
    same record, so no other order is left to observe. *)
Theorem sort_ties_by_nodeid (first_raw first_proc : Z) (presim : Qc)
    (rows : list spike) (i j : nat) (a b : spike) :
  (i < j)%nat →
  process_rows spike_detector first_raw first_proc presim rows !! i = Some a →
  process_rows spike_detector first_raw first_proc presim rows !! j = Some b →
  (time_ms a ≤ time_ms b)%Qc
  ∧ (time_ms a = time_ms b → spike_nodeid a ≤ spike_nodeid b)
  ∧ (time_ms a = time_ms b → spike_nodeid a = spike_nodeid b → a = b).
Proof.
  intros Hij Ha Hb.
  pose proof (StronglySorted_lookup _ _ i j a b
                (process_rows_StronglySorted spike_detector _ _ _ rows)
                Hij Ha Hb) as Hle.
  split; [by apply spike_le_time|]. split.
  - intros Ht. destruct Hle as [Hlt|[_ Hid]]; [|done].
    rewrite Ht in Hlt. by destruct (Qclt_irrefl _ Hlt).
  - destruct a, b; simpl. by intros -> ->.
Qed.

(** The theorem on the two rows of the counterexample: the spike of node
    12 is written before the spike of node 15. *)
Lemma sort_ties_by_nodeid_witness :
  (time_ms (Spike 3 (decimal 5 1)) ≤ time_ms (Spike 6 (decimal 5 1)))%Qc
  ∧ (time_ms (Spike 3 (decimal 5 1)) = time_ms (Spike 6 (decimal 5 1)) →
     spike_nodeid (Spike 3 (decimal 5 1)) ≤ spike_nodeid (Spike 6 (decimal 5 1)))
  ∧ (time_ms (Spike 3 (decimal 5 1)) = time_ms (Spike 6 (decimal 5 1)) →
     spike_nodeid (Spike 3 (decimal 5 1)) = spike_nodeid (Spike 6 (decimal 5 1)) →
     Spike 3 (decimal 5 1) = Spike 6 (decimal 5 1)).
Proof.
  apply (sort_ties_by_nodeid 10 1 (decimal 100 1)
           [Spike 15 (decimal 105 1); Spike 12 (decimal 105 1)] 0 1).
  - lia.
  - vm_compute. reflexivity.
  - vm_compute. reflexivity.
Defined.

(** ** Ranges of the processed records *)

Section ProcessedRange.



End ProcessedRange.



(** ** Round-robin ownership of the merge *)

Section RoundRobin.




Lemma fst_enumerate_from {A} (l : list A) (i : nat) :
  (enumerate_from i l).*1 = seq i (length l).
Proof.
  revert i. induction l as [|x l IH]; intros i; simpl; [done|]. by rewrite IH.
Qed.

End RoundRobin.

Section RoundRobinPartition.





End RoundRobinPartition.



(** ** Re-running the merge *)

Section Writers.
















End Writers.


(** ** The raw table and the number of populations *)

Section RawTableLength.





End RawTableLength.




(** ** The rates of [__first_glance_on_data] *)

Section Rates.

Lemma rate_step_length (SIZE RANK : nat) (sim : sim_dict) (net : net_dict)
    (lr lr' : list Qc) (ipop : nat) (X : string) (s s' : fs) :
  rate_step SIZE RANK sim net lr ipop X s = (s', Ok lr') →
  length lr' = length lr.
Proof.
  unfold rate_step. case_decide; [discriminate|].
  case_decide; [|by intros [= _ <-]].
  unfold mbind, M_bind, read_processed, lift, mret, M_ret.
  destruct (path_processed_data s !! _); [|discriminate].
  destruct (getitem _ _); [|discriminate].
  destruct (truediv _ _); [|discriminate].
  destruct (truediv _ _); [|discriminate].
  intros [= _ <-]. by rewrite length_insert.
Qed.

Lemma rate_loop_length (SIZE RANK : nat) (sim : sim_dict) (net : net_dict)
    (pops : list (nat * string)) (lr lr' : list Qc) (s s' : fs) :
  rate_loop SIZE RANK sim net lr pops s = (s', Ok lr') →
  length lr' = length lr.
Proof.
  revert lr s. induction pops as [|[ipop X] pops IH]; intros lr s; simpl.
  - by intros [= _ <-].
  - unfold mbind, M_bind.
    destruct (rate_step SIZE RANK sim net lr ipop X s) as [s1 [lr1|e]] eqn:E;
      [|discriminate].
    intros H. apply IH in H. apply rate_step_length in E. congruence.
Qed.

Lemma local_rates_length (SIZE RANK : nat) (sim : sim_dict) (net : net_dict)
    (lr : list Qc) (s s' : fs) :
  local_rates SIZE RANK sim net s = (s', Ok lr) →
  length lr = block_size net SIZE.
Proof.
  intros H. apply rate_loop_length in H. by rewrite length_replicate in H.
Qed.

Lemma run_ranks_lengths (SIZE : nat) (sim : sim_dict) (net : net_dict)
    (ranks : list nat) (s s' : fs) (os : list (outcome (list Qc)))
    (ls : list (list Qc)) :
  run_ranks (λ RANK, local_rates SIZE RANK sim net) ranks s = (s', os) →
  sequence_outcomes os = Ok ls →
  length (concat ls) = (block_size net SIZE * length ranks)%nat.
Proof.
  revert s s' os ls.
  induction ranks as [|r ranks IH]; intros s s' os ls; simpl.
  - intros [= _ <-]. simpl. intros [= <-]. simpl. lia.
  - destruct (local_rates SIZE r sim net s) as [s1 o] eqn:E.
    destruct (run_ranks _ ranks s1) as [s2 os2] eqn:E2.
    intros [= _ <-]. simpl. unfold mbind, outcome_bind.
    destruct o as [l|e]; [|discriminate].
    destruct (sequence_outcomes os2) as [ls2|e] eqn:E3; [|discriminate].
    intros [= <-]. simpl. rewrite length_app.
    rewrite (IH _ _ _ _ E2 E3), (local_rates_length _ _ _ _ _ _ _ E). lia.
Qed.

(** The gathered vector has [block_size * SIZE] entries, and the slice
    [rates[:len(self.X)]] never shortens it. *)
Lemma rates_length (SIZE : nat) (sim : sim_dict) (net : net_dict)
    (r : list Qc) (s s' : fs) :
  rates SIZE sim net s = (s', Ok r) →
  length r = (block_size net SIZE * SIZE)%nat.
Proof.
  unfold rates, mbind, M_bind, spmd.
  destruct (run_ranks _ (seq 0 SIZE) s) as [s1 os] eqn:E.
  destruct (sequence_outcomes os) as [ls|e] eqn:E2; [|discriminate].
  unfold mret, M_ret. intros [= _ <-].
  pose proof (run_ranks_lengths _ _ _ _ _ _ _ _ E E2) as Hlen.
  rewrite length_seq in Hlen. rewrite length_take, Hlen.
  unfold block_size. destruct SIZE as [|n]; [lia|].
  pose proof (Nat.Div0.mul_div_le (length (populations net)) (S n)). lia.
Qed.

(** The rate of an owned population counts every line of its merged
    file, the header line with the spikes. *)
Lemma rate_step_owned (SIZE RANK : nat) (sim : sim_dict) (net : net_dict)
    (lr : list Qc) (ipop : nat) (X : string) (s : fs)
    (lines : list string) (n : Z) :
  block_size net SIZE ≠ 0%nat →
  (ipop / block_size net SIZE)%nat = RANK →
  path_processed_data s !! ("spike_detector_" +:+ X +:+ ".dat")
  = Some (header spike_detector :: lines) →
  num_neurons net !! ipop = Some n →
  Qc_of_Z n ≠ Q2Qc 0 →
  (t_sim sim * Q2Qc (1 # 1000))%Qc ≠ Q2Qc 0 →
  rate_step SIZE RANK sim net lr ipop X s
  = (s, Ok (<[(ipop mod block_size net SIZE)%nat :=
               (Qc_of_Z (Z.of_nat (S (length lines))) / Qc_of_Z n
                / (t_sim sim * Q2Qc (1 # 1000)))%Qc]> lr)).
Proof.
  intros Hbs Hown Hfile Hn Hn0 Ht0. unfold rate_step.
  rewrite decide_False by done. rewrite decide_True by done.
  unfold mbind, M_bind, read_processed, lift, getitem, truediv, mret, M_ret.
  rewrite Hfile, Hn. simpl length.
  rewrite decide_False by done. rewrite decide_False by done. done.
Qed.

Lemma local_rates_no_block (SIZE RANK : nat) (sim : sim_dict)
    (net : net_dict) (s : fs) :
  (1 ≤ length (populations net) < SIZE)%nat →
  local_rates SIZE RANK sim net s = (s, Raise ZeroDivisionError).
Proof.
  intros [Hpos Hlt]. unfold local_rates, enumerate.
  destruct (populations net) as [|X pops] eqn:E; [simpl in Hpos; lia|].
  simpl. unfold mbind, M_bind, rate_step.
  rewrite decide_True; [done|].
  unfold block_size. rewrite E. by apply Nat.div_small.
Qed.

Lemma run_ranks_all_raise {A} (prog : nat → M A) (e : exn)
    (ranks : list nat) (s : fs) :
  (∀ r s, prog r s = (s, Raise e)) →
  run_ranks prog ranks s = (s, (λ _, Raise e) <$> ranks).
Proof.
  intros Hprog. revert s. induction ranks as [|r ranks IH]; intros s; simpl.
  - done.
  - by rewrite Hprog, IH.
Qed.

End Rates.

(** C4, on a population without spikes: its merged file is the header
    line alone, and the rate computed from it is that of one spike, 0.1 per
    second for ten neurons and one second, where the claim has 0. *)
Theorem silent_population_rate_counts_header :
  ∃ (s' : fs) (rate : Qc),
    spmd 1 (λ RANK, merge_raw_files 1 RANK scenario_sim scenario_net1
                      [(10, 19)] [(1, 10)] spike_detector)
         scenario_silent_fs = (s', Ok [()])
    ∧ path_processed_data s' !! "spike_detector_L23E.dat"
      = Some [header spike_detector]
    ∧ rates 1 scenario_sim scenario_net1 s' = (s', Ok [rate])
    ∧ rate = decimal 1 10
    ∧ rate ≠ Q2Qc 0.
Proof.
  eexists _, _. split; [vm_compute; reflexivity|].
  split; [vm_compute; reflexivity|].
  split; [vm_compute; reflexivity|].
  split; [by apply Qc_is_canon | discriminate].
Qed.

(** C5, on eight populations and three processes: blocks of two leave the
    populations 6 and 7 to a rank 3 that does not exist, the gathered
    vector has six entries, the slice to eight keeps six, and filling the
    overview of eight rows with them fails. *)
Theorem uneven_blocks_rates_short :
  block_size scenario_net8 3 = 2%nat
  ∧ (6 / block_size scenario_net8 3 = 3)%nat
  ∧ (7 / block_size scenario_net8 3 = 3)%nat
  ∧ (∃ r, rates 3 scenario_sim scenario_net8 scenario_merged8_fs
          = (scenario_merged8_fs, Ok r)
          ∧ length r = 6%nat
          ∧ length (populations scenario_net8) = 8%nat)
  ∧ first_glance_on_data 3 scenario_sim scenario_net8
      [(1, 10); (11, 20); (21, 30); (31, 40);
       (41, 50); (51, 60); (61, 70); (71, 80)] scenario_merged8_fs
    = (scenario_merged8_fs, Raise ValueError).
Proof.
  split; [reflexivity|]. split; [reflexivity|]. split; [reflexivity|].
  split.
  - eexists. split; [vm_compute; reflexivity|]. split; reflexivity.
  - vm_compute. reflexivity.
Qed.

(** C10, as stated, fails: one process and no population is a
    configuration where the process count exceeds the population count,
    yet nothing is divided and the phase completes. *)
Lemma no_populations_no_division :
  (length (populations scenario_net0) < 1)%nat
  ∧ block_size scenario_net0 1 = 0%nat
  ∧ first_glance_on_data 1 scenario_sim scenario_net0 [] scenario_silent_fs
    = (scenario_silent_fs, Ok []).
Proof.
  split; [simpl; lia|]. split; [reflexivity|]. vm_compute. reflexivity.
Qed.

(** C10, amended.  With at least one population and more processes than
    populations the block size is 0, every process raises a division by
    zero at the first population of its loop, and so does the phase;
    hence, with at least one population, the phase completes only when
    the process count is at most the population count. *)
Theorem more_processes_than_populations (SIZE : nat) (sim : sim_dict)
    (net : net_dict) (processed : list (Z * Z)) (s : fs) :
  (1 ≤ length (populations net))%nat →
  ((length (populations net) < SIZE)%nat →
     block_size net SIZE = 0%nat
     ∧ (∀ RANK, local_rates SIZE RANK sim net s = (s, Raise ZeroDivisionError))
     ∧ first_glance_on_data SIZE sim net processed s
       = (s, Raise ZeroDivisionError))
  ∧ (∀ s' ov, first_glance_on_data SIZE sim net processed s = (s', Ok ov) →
       (SIZE ≤ length (populations net))%nat).
Proof.
  intros Hpos.
  assert (Hraise : (length (populations net) < SIZE)%nat →
            first_glance_on_data SIZE sim net processed s
            = (s, Raise ZeroDivisionError)).
  { intros Hlt. unfold first_glance_on_data, rates, mbind, M_bind, spmd.
    rewrite (run_ranks_all_raise _ ZeroDivisionError).
    - destruct SIZE as [|n]; [lia|]. done.
    - intros r s0. by apply local_rates_no_block. }
  split.
  - intros Hlt. split; [by apply Nat.div_small|]. split; [|by apply Hraise].
    intros RANK. by apply local_rates_no_block.
  - intros s' ov Hok.
    destruct (decide (length (populations net) < SIZE)%nat) as [Hlt|]; [|lia].
    rewrite (Hraise Hlt) in Hok. discriminate.
Qed.

(** The theorem for eight populations on nine processes. *)
Lemma more_processes_than_populations_witness :
  first_glance_on_data 9 scenario_sim scenario_net8 [] scenario_merged8_fs
  = (scenario_merged8_fs, Raise ZeroDivisionError).
Proof.
  destruct (more_processes_than_populations 9 scenario_sim scenario_net8 []
              scenario_merged8_fs) as [Hraise _].
  - simpl. lia.
  - apply Hraise. simpl. lia.
Defined.

(** * Further properties of the merge and of the statistics *)

Section MergeFrame.

Lemma string_length_app (a b : string) :
  String.length (a +:+ b) = (String.length a + String.length b)%nat.
Proof. induction a as [|c a IH]; simpl; [done | by rewrite IH]. Qed.

Lemma string_app_inj_r (a b t : string) : a +:+ t = b +:+ t → a = b.
Proof.
  revert b. induction a as [|c a IH]; intros [|c' b] H.
  - done.
  - apply (f_equal String.length) in H.
    rewrite !string_length_app in H. simpl in H. lia.
  - apply (f_equal String.length) in H.
    rewrite !string_length_app in H. simpl in H. lia.
  - change (String c (a +:+ t) = String c' (b +:+ t)) in H.
    injection H as -> H. f_equal. by apply IH.
Qed.

Lemma processed_name_inj (d : datatype) (X X' : string) :
  datatype_name d +:+ "_" +:+ X +:+ ".dat"
  = datatype_name d +:+ "_" +:+ X' +:+ ".dat" → X = X'.
Proof.
  intros H. apply String.app_inj, String.app_inj in H.
  by apply string_app_inj_r in H.
Qed.

Lemma load_all_state (d : datatype) (files : list string)
    (comb_data : ndarray (row d)) (s : fs) :
  (load_all d comb_data files s).1 = s.
Proof.
  revert comb_data. induction files as [|fn files IH]; intros comb_data; simpl.
  - done.
  - unfold mbind, M_bind, loadtxt.
    destruct (path_raw_data s !! fn) as [f|]; [|done].
    destruct (parse d f) as [data|e]; [apply IH | done].
Qed.

(** One population of the merge writes its own processed file and no
    other. *)
Lemma merge_population_frame (sim : sim_dict)
    (nodeids_raw nodeids_proc : list (Z * Z)) (d : datatype)
    (ipop : nat) (X fn : string) (s : fs) :
  fn ≠ datatype_name d +:+ "_" +:+ X +:+ ".dat" →
  path_processed_data
    (merge_population sim nodeids_raw nodeids_proc d ipop X s).1 !! fn
  = path_processed_data s !! fn.
Proof.
  intros Hfn. unfold merge_population, mbind, M_bind, glob.
  pose proof (load_all_state d
    (filter (λ name, matches (datatype_name d +:+ "_" +:+ X) name = true)
            (map_to_list (path_raw_data s)).*1) Empty2D s) as Hs.
  destruct (load_all d Empty2D _ s) as [s1 [comb_data|e]]; simpl in Hs; subst s1;
    [|done].
  unfold lift. destruct (getitem nodeids_raw ipop) as [raw|e]; [|done].
  destruct (getitem nodeids_proc ipop) as [proc|e]; [|done].
  destruct comb_data as [|rows]; simpl; unfold mbind, M_bind; simpl;
    by rewrite lookup_insert_ne.
Qed.

Lemma elem_of_enumerate_from_lookup {A} (l : list A) (i j : nat) (x : A) :
  (j, x) ∈ enumerate_from i l → (i ≤ j)%nat ∧ l !! (j - i)%nat = Some x.
Proof.
  revert i. induction l as [|y l IH]; intros i; simpl.
  - intros H. by apply elem_of_nil in H.
  - intros H. apply elem_of_cons in H as [H|H].
    + injection H as -> ->. split; [lia|]. by rewrite Nat.sub_diag.
    + apply IH in H as [Hle H]. split; [lia|].
      replace (j - i)%nat with (S (j - S i)) by lia. done.
Qed.

Lemma for_each_frame {A} (l : list A) (body : A → M unit) (fn : string) (s : fs) :
  (∀ x s, x ∈ l →
     path_processed_data (body x s).1 !! fn = path_processed_data s !! fn) →
  path_processed_data (for_each l body s).1 !! fn = path_processed_data s !! fn.
Proof.
  revert s. induction l as [|x l IH]; intros s Hbody; simpl; [done|].
  unfold mbind, M_bind.
  pose proof (Hbody x s ltac:(apply elem_of_cons; by left)) as Hx.
  destruct (body x s) as [s1 [[]|e]]; simpl in Hx; [|done].
  rewrite IH; [done|]. intros y s' Hy. apply Hbody, elem_of_cons. by right.
Qed.

End MergeFrame.

(** X1. The merged records do not depend on how the records are spread
    over the raw files nor on the order in which [glob] lists the files:
    two lists of raw files with the same records, in any order, give the
    same processed rows. *)
Theorem merge_independent_of_file_order (d : datatype)
    (first_raw first_proc : Z) (presim : Qc) (frags frags' : list (list (row d))) :
  concat frags ≡ₚ concat frags' →
  process_rows d first_raw first_proc presim (concat frags)
  = process_rows d first_raw first_proc presim (concat frags').
Proof.
  intros Hperm. unfold process_rows. apply np_sort_unique.
  - rewrite np_sort_Permutation. by rewrite Hperm.
  - apply np_sort_StronglySorted.
Qed.

(** The theorem on two spike files listed in either order. *)
Lemma merge_independent_of_file_order_witness :
  process_rows spike_detector 10 1 (decimal 100 1)
    (concat [[Spike 15 (decimal 105 1)]; [Spike 12 (decimal 1032 10)]])
  = process_rows spike_detector 10 1 (decimal 100 1)
      (concat [[Spike 12 (decimal 1032 10)]; [Spike 15 (decimal 105 1)]]).
Proof.
  apply (merge_independent_of_file_order spike_detector).
  simpl. apply perm_swap.
Defined.

(** X2. A population for which [glob] finds no raw file is not merged into
    a file with a header only: [np.savetxt] raises on the still
    two-dimensional empty array, after it has created the processed file,
    which is left empty; no other file changes. *)
Theorem merge_without_raw_file (sim : sim_dict)
    (nodeids_raw processed : list (Z * Z)) (d : datatype)
    (ipop : nat) (X : string) (raw proc : Z * Z) (s : fs) :
  nodeids_raw !! ipop = Some raw →
  processed !! ipop = Some proc →
  glob (datatype_name d +:+ "_" +:+ X) s = (s, Ok []) →
  ∃ s',
    merge_population sim nodeids_raw processed d ipop X s
    = (s', Raise AttributeError)
    ∧ path_raw_data s' = path_raw_data s
    ∧ path_processed_data s' !! (datatype_name d +:+ "_" +:+ X +:+ ".dat")
      = Some []
    ∧ ∀ fn, fn ≠ datatype_name d +:+ "_" +:+ X +:+ ".dat" →
        path_processed_data s' !! fn = path_processed_data s !! fn.
Proof.
  intros Hraw Hproc Hglob. eexists. split.
  { exact (merge_population_no_files sim _ _ d ipop X _ _ s Hraw Hproc Hglob). }
  simpl. split; [done|]. split; [by rewrite lookup_insert_eq|].
  intros fn Hfn. by rewrite lookup_insert_ne.
Qed.

(** The theorem on the population L23I, which has no raw file. *)
Lemma merge_without_raw_file_witness :
  ∃ s',
    merge_population scenario_sim [(10, 19); (20, 29)] [(1, 10); (11, 20)]
      spike_detector 1 "L23I" scenario_silent_fs = (s', Raise AttributeError)
    ∧ path_raw_data s' = path_raw_data scenario_silent_fs
    ∧ path_processed_data s'
        !! (datatype_name spike_detector +:+ "_" +:+ "L23I" +:+ ".dat")
      = Some []
    ∧ ∀ fn, fn ≠ datatype_name spike_detector +:+ "_" +:+ "L23I" +:+ ".dat" →
        path_processed_data s' !! fn
        = path_processed_data scenario_silent_fs !! fn.
Proof.
  apply (merge_without_raw_file scenario_sim [(10, 19); (20, 29)]
           [(1, 10); (11, 20)] spike_detector 1 "L23I" (20, 29) (11, 20)).
  - reflexivity.
  - reflexivity.
  - vm_compute. reflexivity.
Defined.

(** X3. With population names that are all different, a process leaves the
    processed file of every population it does not own as it found it: a
    processed file is written by the process [ipop % SIZE] and by no
    other. *)
Theorem merge_writes_owned_files_only (SIZE RANK : nat) (sim : sim_dict)
    (net : net_dict) (nodeids_raw processed : list (Z * Z)) (d : datatype)
    (s : fs) (ipop : nat) (X : string) :
  NoDup (populations net) →
  populations net !! ipop = Some X →
  (ipop mod SIZE)%nat ≠ RANK →
  path_processed_data
    (merge_raw_files SIZE RANK sim net nodeids_raw processed d s).1
    !! (datatype_name d +:+ "_" +:+ X +:+ ".dat")
  = path_processed_data s !! (datatype_name d +:+ "_" +:+ X +:+ ".dat").
Proof.
  intros Hnodup HX Hown. unfold merge_raw_files, enumerate.
  apply for_each_frame. intros [j Y] s0 Hin.
  apply elem_of_enumerate_from_lookup in Hin as [_ HY].
  rewrite Nat.sub_0_r in HY.
  case_decide as Hj; [|done].
  apply merge_population_frame. intros Heq.
  apply processed_name_inj in Heq. subst Y.
  pose proof (NoDup_lookup _ _ _ _ Hnodup HX HY). congruence.
Qed.

(** The theorem on two populations and two processes: rank 0 leaves the
    file of L23I alone. *)
Lemma merge_writes_owned_files_only_witness :
  path_processed_data
    (merge_raw_files 2 0 scenario_sim scenario_net2 [(10, 19); (20, 29)]
       [(1, 10); (11, 20)] spike_detector scenario_silent_fs).1
    !! (datatype_name spike_detector +:+ "_" +:+ "L23I" +:+ ".dat")
  = path_processed_data scenario_silent_fs
      !! (datatype_name spike_detector +:+ "_" +:+ "L23I" +:+ ".dat").
Proof.
  apply (merge_writes_owned_files_only 2 0 scenario_sim scenario_net2
           [(10, 19); (20, 29)] [(1, 10); (11, 20)] spike_detector
           scenario_silent_fs 1 "L23I").
  - apply NoDup_ListNoDup. repeat constructor; simpl; intuition discriminate.
  - reflexivity.
  - simpl. lia.
Defined.

Section Overview.

Lemma assign_column_length {A} (n : nat) (values l : list A) :
  assign_column n values = Ok l →
  length l = n ∧ (length values = n ∨ length values = 1%nat).
Proof.
  unfold assign_column. case_decide as Hn.
  - intros [= <-]. auto.
  - destruct values as [|v [|w values]]; try discriminate.
    intros [= <-]. rewrite length_replicate. auto.
Qed.

Lemma overview_rows_length (pop : list string) (num : list Z) (rate : list Qc)
    (first last : list Z) (n : nat) :
  length pop = n → length num = n → length rate = n →
  length first = n → length last = n →
  length (overview_rows pop num rate first last) = n.
Proof.
  revert pop num rate first last.
  induction n as [|n IH]; intros [|p pop] [|m num] [|r rate] [|f first] [|l last];
    simpl; try discriminate; try done.
  intros. f_equal. apply IH; lia.
Qed.

End Overview.

(** X4. The sanity check returns its overview only when the number of
    processes divides the number of populations, and the overview then has
    one row per population: the gathered rates must fill the overview
    exactly, a single rate being the only vector that is broadcast. *)
Theorem first_glance_needs_full_blocks (SIZE : nat) (sim : sim_dict)
    (net : net_dict) (processed : list (Z * Z)) (s s' : fs)
    (ov : list overview_row) :
  first_glance_on_data SIZE sim net processed s = (s', Ok ov) →
  (length (populations net) mod SIZE = 0)%nat
  ∧ length ov = length (populations net).
Proof.
  unfold first_glance_on_data, mbind, M_bind.
  destruct (rates SIZE sim net s) as [s1 [r|e]] eqn:Hrates; [|discriminate].
  apply rates_length in Hrates.
  unfold lift, overview, mbind, outcome_bind. intros [= _ Hov].
  destruct (assign_column _ (Np.int32 <$> _)) as [num|e] eqn:Hnum;
    [|discriminate].
  destruct (assign_column _ r) as [rate|e] eqn:Hrate; [|discriminate].
  destruct (assign_column _ (Np.int32 ∘ fst <$> processed))
    as [first|e] eqn:Hfirst; [|discriminate].
  destruct (assign_column _ (Np.int32 ∘ snd <$> processed))
    as [last|e] eqn:Hlast; [|discriminate].
  injection Hov as <-.
  apply assign_column_length in Hnum as [Hnum _], Hrate as [Hrate Hr],
    Hfirst as [Hfirst _], Hlast as [Hlast _].
  split.
  - unfold block_size in Hrates. destruct SIZE as [|n].
    + rewrite Hrates in Hr. simpl. destruct Hr as [Hr|Hr]; lia.
    + pose proof (Nat.div_mod_eq (length (populations net)) (S n)) as Hdm.
      pose proof (Nat.mod_upper_bound (length (populations net)) (S n)) as Hub.
      rewrite Nat.mul_comm in Hrates.
      destruct Hr as [Hr|Hr]; [lia|].
      destruct n as [|n]; [by rewrite Nat.mod_1_r|].
      rewrite Hr in Hrates.
      destruct (length (populations net) / S (S n))%nat; simpl in Hrates; lia.
  - apply overview_rows_length; rewrite ?length_fmap; done.
Qed.

(** The theorem on the eight populations and two processes. *)
Lemma first_glance_needs_full_blocks_witness :
  (length (populations scenario_net8) mod 2 = 0)%nat
  ∧ length
      ((λ X, OverviewRow X 10 (decimal 1 10) 1 10)
         <$> populations scenario_net8)
    = length (populations scenario_net8).
Proof.
  refine (first_glance_needs_full_blocks 2 scenario_sim scenario_net8
            ((λ _, (1, 10)) <$> populations scenario_net8)
            scenario_merged8_fs scenario_merged8_fs _ _).
  vm_compute. reflexivity.
Defined.

Section Broadcast.



End Broadcast.



Section RatesLayout.

Lemma rate_step_population_rate (SIZE RANK : nat) (sim : sim_dict)
    (net : net_dict) (lr : list Qc) (ipop : nat) (X : string) (s : fs) :
  block_size net SIZE ≠ 0%nat →
  rate_step SIZE RANK sim net lr ipop X s
  = (s, if decide (ipop / block_size net SIZE = RANK)%nat
        then q ← population_rate sim net s ipop X;
             Ok (<[(ipop mod block_size net SIZE)%nat := q]> lr)
        else Ok lr).
Proof.
  intros Hbs. unfold rate_step, population_rate.
  rewrite decide_False by done. case_decide; [|done].
  unfold mbind, M_bind, outcome_bind, read_processed, lift, mret, M_ret.
  destruct (path_processed_data s !! _); [|done].
  destruct (getitem _ _); [|done].
  destruct (truediv _ _); [|done].
  by destruct (truediv _ _).
Qed.

Lemma block_index (bs RANK k : nat) :
  (k < bs)%nat →
  ((RANK * bs + k) / bs = RANK)%nat ∧ ((RANK * bs + k) mod bs = k)%nat.
Proof.
  intros Hk. split.
  - rewrite Nat.div_add_l by lia. rewrite Nat.div_small by lia. lia.
  - rewrite Nat.add_comm, Nat.Div0.mod_add. by apply Nat.mod_small.
Qed.

Lemma block_index_inv (bs i : nat) :
  bs ≠ 0%nat → (i = (i / bs) * bs + i mod bs)%nat ∧ (i mod bs < bs)%nat.
Proof.
  intros Hbs. split.
  - pose proof (Nat.div_mod_eq i bs). lia.
  - by apply Nat.mod_upper_bound.
Qed.

(** The loop over the populations [i, i + length pops) fills the slot [k]
    of the block of [RANK] with the rate of the population
    [RANK * block_size + k] and leaves the other slots. *)
Lemma rate_loop_block (SIZE RANK : nat) (sim : sim_dict) (net : net_dict)
    (s : fs) (pops : list string) (i : nat) (lr : list Qc) :
  block_size net SIZE ≠ 0%nat →
  length lr = block_size net SIZE →
  (∀ j X, pops !! j = Some X →
     ((i + j) / block_size net SIZE = RANK)%nat →
     ∃ q, population_rate sim net s (i + j) X = Ok q) →
  ∃ lr',
    rate_loop SIZE RANK sim net lr (enumerate_from i pops) s = (s, Ok lr')
    ∧ length lr' = block_size net SIZE
    ∧ ∀ k, (k < block_size net SIZE)%nat →
        if decide (i ≤ RANK * block_size net SIZE + k < i + length pops)%nat
        then ∃ X q,
               pops !! (RANK * block_size net SIZE + k - i)%nat = Some X
               ∧ population_rate sim net s
                   (RANK * block_size net SIZE + k) X = Ok q
               ∧ lr' !! k = Some q
        else lr' !! k = lr !! k.
Proof.
  intros Hbs. set (bs := block_size net SIZE) in *.
  revert i lr. induction pops as [|X pops IH]; intros i lr Hlen Hrates.
  - exists lr. simpl. split; [done|]. split; [done|].
    intros k Hk. rewrite decide_False by lia. done.
  - simpl. unfold mbind, M_bind.
    rewrite rate_step_population_rate by done. fold bs.
    destruct (decide (i / bs = RANK)%nat) as [Hown|Hown].
    + destruct (Hrates 0%nat X eq_refl) as [q Hq];
        [by rewrite Nat.add_0_r|].
      rewrite Nat.add_0_r in Hq. rewrite Hq. simpl.
      destruct (IH (S i) (<[(i mod bs)%nat := q]> lr)) as (lr' & Hloop & Hlen' & Hslots).
      { by rewrite length_insert. }
      { intros j Y HY Hj.
        replace (S i + j)%nat with (i + S j)%nat in * by lia.
        by apply (Hrates (S j) Y HY). }
      exists lr'. split; [done|]. split; [done|].
      intros k Hk. specialize (Hslots k Hk).
      destruct (block_index_inv bs i Hbs) as [Hi Himod].
      destruct (decide (RANK * bs + k = i)%nat) as [Hki|Hki].
      * rewrite decide_True by lia. rewrite decide_False in Hslots by lia.
        exists X, q. rewrite Hki, Nat.sub_diag. split; [done|]. split; [done|].
        rewrite Hslots.
        destruct (block_index bs RANK k Hk) as [_ Hmod].
        rewrite Hki in Hmod. rewrite Hmod.
        apply list_lookup_insert_eq. lia.
      * destruct (decide (S i ≤ RANK * bs + k < S i + length pops)%nat)
          as [Hin|Hout].
        -- rewrite decide_True by lia.
           destruct Hslots as (Y & q' & HY & Hq' & Hk').
           exists Y, q'. split; [|done].
           replace (RANK * bs + k - i)%nat with (S (RANK * bs + k - S i))
             by lia. done.
        -- rewrite decide_False by lia. rewrite Hslots.
           apply list_lookup_insert_ne. intros Heq. apply Hki.
           rewrite <- Heq, <- Hown. lia.
    + simpl.
      destruct (IH (S i) lr Hlen) as (lr' & Hloop & Hlen' & Hslots).
      { intros j Y HY Hj.
        replace (S i + j)%nat with (i + S j)%nat in * by lia.
        by apply (Hrates (S j) Y HY). }
      exists lr'. split; [done|]. split; [done|].
      intros k Hk. specialize (Hslots k Hk).
      assert (RANK * bs + k ≠ i)%nat as Hki.
      { intros Heq. apply Hown. rewrite <- Heq.
        by destruct (block_index bs RANK k Hk). }
      destruct (decide (S i ≤ RANK * bs + k < S i + length pops)%nat)
        as [Hin|Hout].
      * rewrite decide_True by lia.
        destruct Hslots as (Y & q' & HY & Hq' & Hk').
        exists Y, q'. split; [|done].
        replace (RANK * bs + k - i)%nat with (S (RANK * bs + k - S i))
          by lia. done.
      * rewrite decide_False by lia. done.
Qed.

Lemma sequence_outcomes_Ok {A} (ls : list A) :
  sequence_outcomes (Ok <$> ls) = Ok ls.
Proof.
  induction ls as [|l ls IH]; [done|].
  change (sequence_outcomes (Ok <$> l :: ls))
    with (match sequence_outcomes (Ok <$> ls) with
          | Ok l' => Ok (l :: l')
          | Raise e => Raise e
          end).
  by rewrite IH.
Qed.

Lemma run_ranks_reads {A} (prog : nat → M A) (P : nat → A → Prop)
    (ranks : list nat) (s : fs) :
  (∀ r, r ∈ ranks → ∃ a, prog r s = (s, Ok a) ∧ P r a) →
  ∃ ls, run_ranks prog ranks s = (s, Ok <$> ls) ∧ Forall2 P ranks ls.
Proof.
  induction ranks as [|r ranks IH]; intros Hprog; simpl.
  - exists []. split; [done | constructor].
  - destruct (Hprog r) as (a & Ha & HP); [apply elem_of_cons; by left|].
    destruct IH as (ls & Hls & HF).
    { intros r' Hr'. apply Hprog, elem_of_cons. by right. }
    exists (a :: ls). rewrite Ha, Hls. split; [done | by constructor].
Qed.

Lemma lookup_concat_blocks {A} (ls : list (list A)) (bs r k : nat) :
  Forall (λ l, length l = bs) ls → (k < bs)%nat →
  concat ls !! (r * bs + k)%nat = ls !! r ≫= (.!! k).
Proof.
  intros Hls Hk. revert r. induction Hls as [|l ls Hl _ IH]; intros r.
  - done.
  - destruct r as [|r]; simpl.
    + by rewrite lookup_app_l by lia.
    + rewrite lookup_app_r by lia. rewrite <- IH. f_equal. lia.
Qed.

End RatesLayout.

(** X6. When the block size is not 0 and the rate of each of the first
    [block_size * SIZE] populations can be computed (its merged spike
    file is there and no divisor is 0), the gathered vector holds these
    rates in the order of the populations: entry [ipop] is the number of
    lines of the merged file of population [ipop], over its neurons, over
    the seconds simulated.  Populations beyond are not looked at. *)
Theorem rates_in_population_order (SIZE : nat) (sim : sim_dict)
    (net : net_dict) (s : fs) :
  block_size net SIZE ≠ 0%nat →
  (∀ ipop X, populations net !! ipop = Some X →
     (ipop < block_size net SIZE * SIZE)%nat →
     ∃ q, population_rate sim net s ipop X = Ok q) →
  ∃ r,
    rates SIZE sim net s = (s, Ok r)
    ∧ length r = (block_size net SIZE * SIZE)%nat
    ∧ ∀ ipop X, populations net !! ipop = Some X →
        (ipop < block_size net SIZE * SIZE)%nat →
        ∃ q, population_rate sim net s ipop X = Ok q ∧ r !! ipop = Some q.
Proof.
  intros Hbs Hrates. set (bs := block_size net SIZE) in *.
  set (P := λ (RANK : nat) (lr : list Qc),
         length lr = bs
         ∧ ∀ k, (k < bs)%nat →
             if decide (0 ≤ RANK * bs + k
                        < 0 + length (populations net))%nat
             then ∃ X q,
                    populations net !! (RANK * bs + k - 0)%nat = Some X
                    ∧ population_rate sim net s (RANK * bs + k) X = Ok q
                    ∧ lr !! k = Some q
             else lr !! k = replicate bs (Q2Qc 0) !! k).
  destruct (run_ranks_reads (λ RANK, local_rates SIZE RANK sim net) P
              (seq 0 SIZE) s) as (ls & Hrun & HP).
  { intros RANK HRANK. apply elem_of_seq in HRANK.
    destruct (rate_loop_block SIZE RANK sim net s (populations net) 0
                (replicate bs (Q2Qc 0))) as (lr & Hloop & Hlen & Hslots).
    - done.
    - by rewrite length_replicate.
    - intros j X HX Hj. simpl in Hj. apply (Hrates j X HX).
      destruct (block_index_inv bs j Hbs) as [Hj' Hmod]. fold bs in Hj.
      rewrite Hj in Hj'. nia.
    - exists lr. split; [exact Hloop|]. split; [exact Hlen | exact Hslots]. }
  assert (Hlens : Forall (λ l, length l = bs) ls).
  { apply Forall_forall. intros l Hl.
    apply list_elem_of_lookup in Hl as [i Hi].
    destruct (Forall2_lookup_r _ _ _ _ _ HP Hi) as (RANK & _ & [Hlen _]).
    done. }
  assert (Hlen : length (concat ls) = (bs * SIZE)%nat).
  { apply Forall2_length in HP. rewrite length_seq in HP. rewrite HP.
    clear -Hlens. induction Hlens as [|l ls Hl _ IH]; simpl.
    - lia.
    - rewrite length_app, Hl, IH. lia. }
  assert (Hle : (bs * SIZE ≤ length (populations net))%nat).
  { unfold bs, block_size. rewrite Nat.mul_comm.
    apply Nat.Div0.mul_div_le. }
  exists (take (length (populations net)) (concat ls)).
  split.
  { unfold rates, mbind, M_bind, spmd. rewrite Hrun.
    by rewrite sequence_outcomes_Ok. }
  split; [rewrite length_take; lia|].
  intros ipop X HX Hlt.
  destruct (block_index_inv bs ipop Hbs) as [Hipop Hmod].
  assert (HRANK : (ipop / bs < SIZE)%nat) by nia.
  destruct (Forall2_lookup_l _ _ _ (ipop / bs)%nat (ipop / bs)%nat HP)
    as (lr & Hlr & [_ Hslots]).
  { by apply lookup_seq_lt. }
  specialize (Hslots (ipop mod bs)%nat Hmod).
  rewrite <- Hipop in Hslots.
  rewrite decide_True in Hslots by lia.
  destruct Hslots as (Y & q & HY & Hq & Hk).
  rewrite Nat.sub_0_r, HX in HY. injection HY as <-.
  exists q. split; [done|].
  rewrite lookup_take_lt by lia.
  rewrite Hipop at 1.
  rewrite (lookup_concat_blocks ls bs _ _ Hlens Hmod), Hlr. done.
Qed.

(** The theorem on the eight populations and two processes. *)
Lemma rates_in_population_order_witness :
  ∃ r,
    rates 2 scenario_sim scenario_net8 scenario_merged8_fs
    = (scenario_merged8_fs, Ok r)
    ∧ length r = (block_size scenario_net8 2 * 2)%nat
    ∧ ∀ ipop X, populations scenario_net8 !! ipop = Some X →
        (ipop < block_size scenario_net8 2 * 2)%nat →
        ∃ q, population_rate scenario_sim scenario_net8 scenario_merged8_fs
               ipop X = Ok q
             ∧ r !! ipop = Some q.
Proof.
  apply (rates_in_population_order 2 scenario_sim scenario_net8
           scenario_merged8_fs).
  - discriminate.
  - intros ipop X HX _.
    do 8 (destruct ipop as [|ipop];
          [injection HX as <-; eexists; vm_compute; reflexivity|]).
    discriminate.
Defined.

(** * The bins *)

Section Arange.

Local Open Scope Qc_scope.










End Arange.





(** * The simulation: seeds and pulses *)

Section Seeds.



End Seeds.




(** * The raw node id table and the raw file names *)

(** X11. Indexing the raw node ids as the merge does,
    [nodeids_raw[ipop][0]], works on a raw node id file of two or more
    rows, where it is the first id of row [ipop]; on a file of a single
    row, and on an empty file, it raises an [IndexError] for every
    population, because [np.loadtxt] returns a one-dimensional array. *)
Theorem first_raw_id_needs_two_rows (rows : list (Z * Z)) (ipop : nat) :
  ((2 ≤ length rows)%nat →
     first_raw_id (loadtxt_nodeids rows) ipop
     = (getitem rows ipop ≫= λ raw, Ok raw.1))
  ∧ ((length rows ≤ 1)%nat →
       first_raw_id (loadtxt_nodeids rows) ipop = Raise IndexError).
Proof.
  split.
  - destruct rows as [|[first last] [|r' rows]]; simpl; try lia. done.
  - destruct rows as [|[first last] [|r' rows]]; simpl; try lia; intros _.
    + done.
    + unfold getitem. by destruct ([first; last] !! ipop).
Qed.

(** The theorem on the table of one population and on that of two. *)
Lemma first_raw_id_needs_two_rows_witness :
  first_raw_id (loadtxt_nodeids [(10, 19)]) 0 = Raise IndexError
  ∧ first_raw_id (loadtxt_nodeids [(10, 19); (20, 29)]) 1 = Ok 20.
Proof.
  split.
  - apply (first_raw_id_needs_two_rows [(10, 19)] 0). simpl. lia.
  - apply (first_raw_id_needs_two_rows [(10, 19); (20, 29)] 1). simpl. lia.
Defined.

Section GlobPattern.

Lemma string_app_assoc (a b c : string) : (a +:+ b) +:+ c = a +:+ (b +:+ c).
Proof.
  induction a as [|x a IH]; [done|].
  change (String x ((a +:+ b) +:+ c) = String x (a +:+ (b +:+ c))).
  by rewrite IH.
Qed.

Lemma prefix_app_self (p q : string) : String.prefix p (p +:+ q) = true.
Proof.
  induction p as [|x p IH]; [by destruct q|].
  change (String.prefix (String x p) (String x (p +:+ q)) = true).
  simpl. by destruct (ascii_dec x x).
Qed.

Lemma prefix_app_l (p q s : string) :
  String.prefix (p +:+ q) s = true → String.prefix p s = true.
Proof.
  revert s. induction p as [|x p IH]; intros s; [by destruct s|].
  change (String.prefix (String x (p +:+ q)) s = true
          → String.prefix (String x p) s = true).
  destruct s as [|y s]; simpl; [done|].
  destruct (ascii_dec x y); [apply IH | done].
Qed.

Lemma rev_app_app (a b acc : string) :
  String.rev_app (a +:+ b) acc = String.rev_app b (String.rev_app a acc).
Proof.
  revert acc. induction a as [|x a IH]; intros acc; [done|].
  change (String.rev_app (a +:+ b) (String x acc)
          = String.rev_app b (String.rev_app a (String x acc))).
  apply IH.
Qed.

Lemma prefix_nil (s : string) : String.prefix "" s = true.
Proof. by destruct s. Qed.

Lemma prefix_cons (x : ascii) (p s : string) :
  String.prefix (String x p) (String x s) = String.prefix p s.
Proof. simpl. by destruct (ascii_dec x x). Qed.

Lemma ends_with_dat (p : string) : ends_with ".dat" (p +:+ ".dat") = true.
Proof.
  unfold ends_with, String.rev. rewrite rev_app_app.
  cbn [String.rev_app]. rewrite !prefix_cons. apply prefix_nil.
Qed.

Lemma matches_own_output (p : string) : matches p (p +:+ ".dat") = true.
Proof.
  unfold matches. rewrite prefix_app_self, ends_with_dat. simpl.
  apply bool_decide_eq_true. rewrite string_length_app. simpl. lia.
Qed.

Lemma matches_shorter_prefix (p q name : string) :
  matches (p +:+ q) name = true → matches p name = true.
Proof.
  unfold matches. rewrite !andb_true_iff, !bool_decide_eq_true.
  intros [[Hp He] Hl]. rewrite string_length_app in Hl.
  split; [split; [by eapply prefix_app_l | done] | lia].
Qed.

End GlobPattern.

(** X12. The pattern [datatype_X*.dat] that selects the raw files of a
    population also matches the processed file [datatype_X.dat] of that
    population, and it matches every raw file of a population whose name
    starts with [X]: all raw files that [glob] returns for the population
    [X ++ suffix] are also returned for the population [X]. *)
Theorem glob_pattern_overlaps (d : datatype) (X suffix : string) (s : fs)
    (files files' : list string) :
  matches (datatype_name d +:+ "_" +:+ X)
          (datatype_name d +:+ "_" +:+ X +:+ ".dat") = true
  ∧ (glob (datatype_name d +:+ "_" +:+ X) s = (s, Ok files) →
     glob (datatype_name d +:+ "_" +:+ (X +:+ suffix)) s = (s, Ok files') →
     ∀ fn, fn ∈ files' → fn ∈ files).
Proof.
  split.
  - rewrite <- !string_app_assoc. apply matches_own_output.
  - unfold glob. intros [= <-] [= <-] fn.
    rewrite !list_elem_of_filter. intros [Hm Hin]. split; [|done].
    apply (matches_shorter_prefix _ suffix).
    by rewrite !string_app_assoc.
Qed.

(** The theorem on the populations L23 and L23E and the raw files of the
    scenario. *)
Lemma glob_pattern_overlaps_witness :
  glob (datatype_name spike_detector +:+ "_" +:+ "L23") scenario_B_fs
  = (scenario_B_fs, Ok ["spike_detector_L23E-09-0.dat"])
  ∧ glob (datatype_name spike_detector +:+ "_" +:+ ("L23" +:+ "E"))
      scenario_B_fs
    = (scenario_B_fs, Ok ["spike_detector_L23E-09-0.dat"])
  ∧ "spike_detector_L23E-09-0.dat" ∈ ["spike_detector_L23E-09-0.dat"].
Proof.
  assert (glob (datatype_name spike_detector +:+ "_" +:+ "L23") scenario_B_fs
          = (scenario_B_fs, Ok ["spike_detector_L23E-09-0.dat"])) as Hshort
    by (vm_compute; reflexivity).
  assert (glob (datatype_name spike_detector +:+ "_" +:+ ("L23" +:+ "E"))
            scenario_B_fs
          = (scenario_B_fs, Ok ["spike_detector_L23E-09-0.dat"])) as Hlong
    by (vm_compute; reflexivity).
  split; [exact Hshort|]. split; [exact Hlong|].
  destruct (glob_pattern_overlaps spike_detector "L23" "E" scenario_B_fs
              ["spike_detector_L23E-09-0.dat"]
              ["spike_detector_L23E-09-0.dat"]) as [_ Hsub].
  apply (Hsub Hshort Hlong). apply elem_of_cons. by left.
Defined.

(** * The recurrent connections *)

Section Connections.

Lemma Qc_abs_nonneg (q : Qc) : (Q2Qc 0 ≤ Qc_abs q)%Qc.
Proof.
  unfold Qc_abs. case_decide as Hq.
  - apply Qclt_le_weak in Hq. apply Qcopp_le_compat in Hq.
    by replace (- Q2Qc 0)%Qc with (Q2Qc 0) in Hq by ring.
  - by apply Qcnot_lt_le.
Qed.

Lemma conn_dict_rec_flags (net : conn_dict) (i j : nat) (conn : conn_spec) :
  conn_dict_rec net i j = Done conn →
  allow_autapses conn = false ∧ allow_multapses conn = true.
Proof.
  unfold conn_dict_rec, mbind, conn_result_bind.
  repeat case_decide; try discriminate;
    repeat match goal with
           | |- context [entry ?m i j] => destruct (entry m i j)
           end; try discriminate; by intros [= <-].
Qed.

(** What holds of every call that the body issues for the pair of the
    target [i] and the source [j]. *)
Lemma connect_pair_calls (net : conn_dict) (sim_resolution : Qc) (i j : nat)
    (calls : list connect_call) (c : connect_call) :
  connect_pair net sim_resolution i j = Done calls → c ∈ calls →
  target c = i ∧ source c = j
  ∧ (∃ n, entry (num_synapses net) i j = Done n ∧ (Q2Qc 0 ≤ n)%Qc)
  ∧ allow_autapses (call_conn c) = false
  ∧ allow_multapses (call_conn c) = true
  ∧ entry (weight_matrix_mean net) i j = Done (weight_mean (call_syn c))
  ∧ bound_le (weight_min (call_syn c)) (Finite (weight_mean (call_syn c)))
  ∧ bound_le (Finite (weight_mean (call_syn c))) (weight_max (call_syn c))
  ∧ (weight_min (call_syn c) = Finite (Q2Qc 0)
     ∨ weight_max (call_syn c) = Finite (Q2Qc 0))
  ∧ (Q2Qc 0 ≤ weight_std (call_syn c))%Qc
  ∧ delay_min (call_syn c) = sim_resolution
  ∧ delay_max (call_syn c) = Inf.
Proof.
  unfold connect_pair, mbind, conn_result_bind.
  destruct (entry (num_synapses net) i j) as [n|e] eqn:Hn; [|discriminate].
  case_decide as Hpos; [|intros [= <-] Hc; by apply elem_of_nil in Hc].
  destruct (conn_dict_rec net i j) as [conn|e] eqn:Hconn; [|discriminate].
  apply conn_dict_rec_flags in Hconn as [Haut Hmult].
  destruct (entry (weight_matrix_mean net) i j) as [w|e] eqn:Hw; [|discriminate].
  destruct (decide (w < Q2Qc 0)%Qc) as [Hneg|Hnonneg];
    (destruct (delay_param net i j) as [[d|]|e]; try discriminate;
     destruct (entry (repeat_connect net) i j) as [r|e]; try discriminate;
     intros [= <-] Hc; apply elem_of_replicate in Hc as [-> _]; simpl;
     repeat split; eauto using Qc_abs_nonneg).
  - by apply Qclt_le_weak.
  - by apply Qcnot_lt_le.
Qed.

Lemma connect_pairs_issued (net : conn_dict) (sim_resolution : Qc)
    (P : connect_call → Prop) (pairs : list (nat * nat))
    (issued : list connect_call) :
  (∀ c, c ∈ issued → P c) →
  (∀ i j calls c, (i, j) ∈ pairs →
     connect_pair net sim_resolution i j = Done calls → c ∈ calls → P c) →
  ∀ c, c ∈ (connect_pairs net sim_resolution pairs issued).1 → P c.
Proof.
  revert issued. induction pairs as [|[i j] pairs IH]; intros issued Hiss Hbody.
  - done.
  - simpl. destruct (connect_pair net sim_resolution i j) as [calls|e] eqn:E.
    + apply IH.
      * intros c Hc. apply elem_of_app in Hc as [Hc|Hc]; [by apply Hiss|].
        apply (Hbody i j calls c); [apply elem_of_cons; by left | done | done].
      * intros i' j' calls' c Hin. apply Hbody. apply elem_of_cons. by right.
    + done.
Qed.

Lemma elem_of_loop_pairs (num_pops i j : nat) :
  (i, j) ∈ loop_pairs num_pops ↔ (i < num_pops ∧ j < num_pops)%nat.
Proof.
  unfold loop_pairs. rewrite list_elem_of_bind. split.
  - intros (i' & Hin & Hi'). apply elem_of_seq in Hi'.
    apply list_elem_of_bind in Hin as (j' & Hin & Hj').
    apply elem_of_seq in Hj'. apply list_elem_of_singleton in Hin.
    injection Hin as -> ->. lia.
  - intros [Hi Hj]. exists i. split; [|apply elem_of_seq; lia].
    apply list_elem_of_bind. exists j. split; [|apply elem_of_seq; lia].
    by apply list_elem_of_singleton.
Qed.

Lemma NoDup_loop_pairs (num_pops : nat) : NoDup (loop_pairs num_pops).
Proof.
  unfold loop_pairs. apply NoDup_bind; [| |apply NoDup_seq].
  - intros i1 i2 [i j] _ _ H1 H2.
    apply list_elem_of_bind in H1 as (j1 & H1 & _).
    apply list_elem_of_bind in H2 as (j2 & H2 & _).
    apply list_elem_of_singleton in H1, H2. congruence.
  - intros i _. apply NoDup_bind; [| |apply NoDup_seq].
    + intros j1 j2 [i' j] _ _ H1 H2.
      apply list_elem_of_singleton in H1, H2. congruence.
    + intros j _. apply NoDup_singleton.
Qed.

Lemma connect_pair_negative (net : conn_dict) (sim_resolution : Qc)
    (i j : nat) (n : Qc) :
  entry (num_synapses net) i j = Done n → (n < Q2Qc 0)%Qc →
  connect_pair net sim_resolution i j = Done [].
Proof.
  intros Hn Hneg. unfold connect_pair, mbind, conn_result_bind. rewrite Hn.
  case_decide as Hpos; [|done]. by apply Qcle_not_lt in Hpos.
Qed.

(** With a [connect_method] or a [delay_type] that the function does not
    know, the body completes for a pair without synapses only. *)
Lemma connect_pair_unknown (net : conn_dict) (sim_resolution : Qc)
    (i j : nat) (calls : list connect_call) :
  connect_method net ∉ ["fixedtotalnumber"; "fixedindegree";
                        "fixedindegree_exp"; "distr_indegree_exp"]
  ∨ delay_type net ∉ ["normal"; "linear"] →
  connect_pair net sim_resolution i j = Done calls →
  calls = []
  ∧ ∃ n, entry (num_synapses net) i j = Done n ∧ (n < Q2Qc 0)%Qc.
Proof.
  intros Hunknown. unfold connect_pair, mbind, conn_result_bind.
  destruct (entry (num_synapses net) i j) as [n|e]; [|discriminate].
  case_decide as Hpos.
  - intros Hdone. exfalso. destruct Hunknown as [Hm|Hd].
    + unfold conn_dict_rec in Hdone.
      repeat case_decide; try discriminate; apply Hm; set_solver.
    + destruct (conn_dict_rec net i j); [|discriminate].
      destruct (entry (weight_matrix_mean net) i j) as [w|e]; [|discriminate].
      unfold delay_param in Hdone.
      repeat case_decide; try (apply Hd; set_solver);
        by destruct (decide (w < Q2Qc 0)%Qc).
  - intros [= <-]. split; [done|]. exists n. split; [done|].
    by apply Qcnot_le_lt.
Qed.

Lemma connect_pairs_completes (net : conn_dict) (sim_resolution : Qc)
    (pairs : list (nat * nat)) (issued : list connect_call) :
  (connect_pairs net sim_resolution pairs issued).2 = Done ()
  ↔ ∀ i j, (i, j) ∈ pairs →
      ∃ calls, connect_pair net sim_resolution i j = Done calls.
Proof.
  revert issued. induction pairs as [|[i j] pairs IH]; intros issued; simpl.
  - split; [|done]. intros _ i j Hin. by apply elem_of_nil in Hin.
  - destruct (connect_pair net sim_resolution i j) as [calls|e] eqn:E.
    + rewrite IH. split.
      * intros H i' j' Hin. apply elem_of_cons in Hin as [[= -> ->]|Hin]; eauto.
      * intros H i' j' Hin. apply H. apply elem_of_cons. by right.
    + split; [done|]. intros H.
      destruct (H i j) as [calls Hcalls]; [apply elem_of_cons; by left|].
      congruence.
Qed.

Lemma connect_pairs_silent (net : conn_dict) (sim_resolution : Qc)
    (pairs : list (nat * nat)) (issued : list connect_call) :
  (∀ i j calls, (i, j) ∈ pairs →
     connect_pair net sim_resolution i j = Done calls → calls = []) →
  (connect_pairs net sim_resolution pairs issued).1 = issued.
Proof.
  revert issued. induction pairs as [|[i j] pairs IH]; intros issued H; simpl.
  - done.
  - destruct (connect_pair net sim_resolution i j) as [calls|e] eqn:E; [|done].
    rewrite (H i j calls), app_nil_r; [|apply elem_of_cons; by left|done].
    apply IH. intros i' j' calls' Hin. apply H. apply elem_of_cons. by right.
Qed.

Lemma calls_between_pair (net : conn_dict) (sim_resolution : Qc)
    (i j i' j' : nat) (calls : list connect_call) :
  connect_pair net sim_resolution i' j' = Done calls →
  calls_between i j calls = if decide ((i', j') = (i, j)) then calls else [].
Proof.
  intros Hcalls. unfold calls_between.
  assert (∀ c, c ∈ calls → target c = i' ∧ source c = j') as Hpair.
  { intros c Hc.
    destruct (connect_pair_calls net sim_resolution i' j' calls c Hcalls Hc)
      as (? & ? & _). done. }
  clear Hcalls. induction calls as [|c calls IH]; [by case_decide|].
  destruct (Hpair c) as [Ht Hs]; [apply elem_of_cons; by left|].
  rewrite filter_cons, IH
    by (intros c' Hc'; apply Hpair; apply elem_of_cons; by right).
  destruct (decide ((i', j') = (i, j))) as [[= <- <-]|Hne].
  - by rewrite decide_True.
  - rewrite decide_False; [done|]. intros [Ht' Hs']. apply Hne. congruence.
Qed.

Lemma connect_pairs_between (net : conn_dict) (sim_resolution : Qc)
    (i j : nat) (pairs : list (nat * nat))
    (issued trace : list connect_call) :
  NoDup pairs →
  connect_pairs net sim_resolution pairs issued = (trace, Done ()) →
  calls_between i j trace
  = calls_between i j issued
    ++ (if decide ((i, j) ∈ pairs)
        then match connect_pair net sim_resolution i j with
             | Done calls => calls
             | Fail _ => []
             end
        else []).
Proof.
  revert issued. induction pairs as [|[i' j'] pairs IH]; intros issued Hnd.
  - intros [= <-]. destruct (decide ((i, j) ∈ [])) as [Hin|_];
      [by apply elem_of_nil in Hin|].
    by rewrite app_nil_r.
  - apply NoDup_cons in Hnd as [Hnotin Hnd]. cbn [connect_pairs].
    destruct (connect_pair net sim_resolution i' j') as [calls|e] eqn:E;
      [|discriminate].
    intros Hrun. rewrite (IH _ Hnd Hrun). unfold calls_between at 1.
    rewrite filter_app. fold (calls_between i j issued).
    fold (calls_between i j calls).
    rewrite (calls_between_pair _ _ _ _ _ _ _ E), <- app_assoc. f_equal.
    destruct (decide ((i', j') = (i, j))) as [[= -> ->]|Hne].
    + rewrite E, (decide_False (P:=(i, j) ∈ pairs)) by done.
      rewrite decide_True by (apply elem_of_cons; by left).
      by rewrite app_nil_r.
    + simpl. destruct (decide ((i, j) ∈ pairs)) as [Hin|Hnin].
      * rewrite decide_True; [done|]. apply elem_of_cons. by right.
      * rewrite decide_False; [done|]. intros Hin.
        apply elem_of_cons in Hin as [?|?]; congruence.
Qed.

End Connections.

(** X13. Whatever the network dictionary holds, and whether the function
    completes or raises on the way, every call of [nest.Connect] that
    [__connect_neuronal_populations] issues connects two populations of
    the network whose number of synapses is not negative, forbids autapses
    and allows multapses, draws the weight around the mean of the pair
    inside a half line that ends at zero on the side of the sign of the
    mean (never a weight of the opposite sign), with a standard deviation
    that is not negative, and redraws the delay from the simulation
    resolution upwards without an upper bound. *)
Theorem connect_calls_well_formed (net : conn_dict) (sim_resolution : Qc)
    (num_pops : nat) (c : connect_call) :
  c ∈ (connect_neuronal_populations net sim_resolution num_pops).1 →
  (target c < num_pops)%nat ∧ (source c < num_pops)%nat
  ∧ (∃ n, entry (num_synapses net) (target c) (source c) = Done n
          ∧ (Q2Qc 0 ≤ n)%Qc)
  ∧ allow_autapses (call_conn c) = false
  ∧ allow_multapses (call_conn c) = true
  ∧ entry (weight_matrix_mean net) (target c) (source c)
    = Done (weight_mean (call_syn c))
  ∧ bound_le (weight_min (call_syn c)) (Finite (weight_mean (call_syn c)))
  ∧ bound_le (Finite (weight_mean (call_syn c))) (weight_max (call_syn c))
  ∧ (weight_min (call_syn c) = Finite (Q2Qc 0)
     ∨ weight_max (call_syn c) = Finite (Q2Qc 0))
  ∧ (Q2Qc 0 ≤ weight_std (call_syn c))%Qc
  ∧ delay_min (call_syn c) = sim_resolution
  ∧ delay_max (call_syn c) = Inf.
Proof.
  unfold connect_neuronal_populations. revert c.
  apply connect_pairs_issued.
  - intros c Hc. by apply elem_of_nil in Hc.
  - intros i j calls c Hin Hcalls Hc.
    apply elem_of_loop_pairs in Hin as [Hi Hj].
    destruct (connect_pair_calls net sim_resolution i j calls c Hcalls Hc)
      as (-> & -> & Hrest).
    split; [done|]. split; [done|]. exact Hrest.
Qed.

Lemma connect_calls_well_formed_witness :
  scenario_call
    ∈ (connect_neuronal_populations scenario_conn (decimal 1 10) 2).1
  ∧ weight_max (call_syn scenario_call) = Finite (Q2Qc 0)
  ∧ delay_min (call_syn scenario_call) = decimal 1 10.
Proof.
  pose (c := scenario_call).
  assert (c ∈ (connect_neuronal_populations scenario_conn (decimal 1 10) 2).1)
    as Hc.
  { replace (connect_neuronal_populations scenario_conn (decimal 1 10) 2).1
      with [ {| source := 0%nat; target := 0%nat;
                call_conn := {| rule := "fixed_indegree"; spec_N := None;
                                spec_indegree := Some (decimal 100 1);
                                spec_p := None; mask_radius := None;
                                allow_autapses := false;
                                allow_multapses := true |};
                call_syn := {| weight_mean := decimal 878 10;
                               weight_std := decimal 878 100;
                               weight_min := Finite (Q2Qc 0);
                               weight_max := Inf;
                               delay := NormalDelay (decimal 3 2) (decimal 3 4);
                               delay_min := decimal 1 10;
                               delay_max := Inf |} |};
             c; c;
             {| source := 0%nat; target := 1%nat;
                call_conn := {| rule := "fixed_indegree"; spec_N := None;
                                spec_indegree := Some (decimal 80 1);
                                spec_p := None; mask_radius := None;
                                allow_autapses := false;
                                allow_multapses := true |};
                call_syn := {| weight_mean := decimal 878 10;
                               weight_std := decimal 878 100;
                               weight_min := Finite (Q2Qc 0);
                               weight_max := Inf;
                               delay := NormalDelay (decimal 3 2) (decimal 3 4);
                               delay_min := decimal 1 10;
                               delay_max := Inf |} |} ].
    - apply elem_of_cons. right. apply elem_of_cons. by left.
    - vm_compute.
      repeat (f_equal; try (apply Qc_is_canon; reflexivity)). }
  split; [exact Hc|].
  destruct (connect_calls_well_formed scenario_conn (decimal 1 10) 2 c Hc)
    as (_ & _ & _ & _ & _ & _ & _ & _ & _ & _ & Hmin & _).
  split; [reflexivity | exact Hmin].
Defined.

(** X14. With a [connect_method] that is none of 'fixedtotalnumber',
    'fixedindegree', 'fixedindegree_exp' and 'distr_indegree_exp', or a
    [delay_type] that is neither 'normal' nor 'linear',
    [__connect_neuronal_populations] never calls [nest.Connect]: it raises
    at the first pair of populations whose number of synapses is not
    negative (or whose entry is missing), and it completes, with nothing
    connected, exactly when every pair has a negative number of
    synapses. *)
Theorem unknown_method_connects_nothing (net : conn_dict)
    (sim_resolution : Qc) (num_pops : nat) :
  connect_method net ∉ ["fixedtotalnumber"; "fixedindegree";
                        "fixedindegree_exp"; "distr_indegree_exp"]
  ∨ delay_type net ∉ ["normal"; "linear"] →
  (connect_neuronal_populations net sim_resolution num_pops).1 = []
  ∧ ((connect_neuronal_populations net sim_resolution num_pops).2 = Done ()
     ↔ ∀ i j, (i < num_pops)%nat → (j < num_pops)%nat →
         ∃ n, entry (num_synapses net) i j = Done n ∧ (n < Q2Qc 0)%Qc).
Proof.
  intros Hunknown. unfold connect_neuronal_populations. split.
  - apply connect_pairs_silent. intros i j calls _ Hcalls.
    by destruct (connect_pair_unknown net sim_resolution i j calls
                   Hunknown Hcalls).
  - rewrite connect_pairs_completes. split.
    + intros H i j Hi Hj.
      destruct (H i j) as [calls Hcalls]; [by apply elem_of_loop_pairs|].
      by destruct (connect_pair_unknown net sim_resolution i j calls
                     Hunknown Hcalls).
    + intros H i j Hin. apply elem_of_loop_pairs in Hin as [Hi Hj].
      destruct (H i j Hi Hj) as (n & Hn & Hneg). exists [].
      by apply (connect_pair_negative net sim_resolution i j n).
Qed.

Lemma unknown_method_connects_nothing_witness :
  (connect_neuronal_populations
     (scenario_conn_with "fixed_indegree" "normal") (decimal 1 10) 2).1 = []
  ∧ (connect_neuronal_populations
       (scenario_conn_with "fixed_indegree" "normal") (decimal 1 10) 2).2
    = Fail ConnectMethodIncorrect.
Proof.
  split.
  - apply (unknown_method_connects_nothing
             (scenario_conn_with "fixed_indegree" "normal")).
    left. simpl. intros H.
    repeat (apply elem_of_cons in H as [H|H]; [discriminate|]).
    by apply elem_of_nil in H.
  - vm_compute. reflexivity.
Defined.

(** X15. When [__connect_neuronal_populations] completes, the calls of
    [nest.Connect] from the source population [j] to the target population
    [i] are, for a pair with a number of synapses that is not negative,
    [repeat_connect[i][j]] copies of one and the same call (none when
    [repeat_connect[i][j]] is zero or negative), and there is no call at all for a pair
    with a negative number of synapses: every pair of populations is
    visited once. *)
Theorem connect_repeats (net : conn_dict) (sim_resolution : Qc)
    (num_pops i j : nat) (trace : list connect_call) :
  connect_neuronal_populations net sim_resolution num_pops
  = (trace, Done ()) →
  (i < num_pops)%nat → (j < num_pops)%nat →
  ∃ n, entry (num_synapses net) i j = Done n
       ∧ if decide (Q2Qc 0 ≤ n)%Qc
         then ∃ r c, entry (repeat_connect net) i j = Done r
                     ∧ calls_between i j trace = replicate (Z.to_nat r) c
         else calls_between i j trace = [].
Proof.
  intros Hrun Hi Hj. unfold connect_neuronal_populations in Hrun.
  pose proof (connect_pairs_between net sim_resolution i j _ _ _
                (NoDup_loop_pairs num_pops) Hrun) as Hbetween.
  rewrite decide_True in Hbetween by by apply elem_of_loop_pairs.
  assert ((connect_pairs net sim_resolution (loop_pairs num_pops) []).2
          = Done ()) as Hdone by by rewrite Hrun.
  apply connect_pairs_completes with (i := i) (j := j) in Hdone
    as [calls Hcalls]; [|by apply elem_of_loop_pairs].
  rewrite Hcalls in Hbetween. simpl in Hbetween. rewrite Hbetween.
  clear Hbetween Hrun. revert Hcalls.
  unfold connect_pair, mbind, conn_result_bind.
  destruct (entry (num_synapses net) i j) as [n|e]; [|discriminate].
  intros Hcalls. exists n. split; [done|].
  case_decide as Hpos; [|by injection Hcalls as <-].
  destruct (conn_dict_rec net i j) as [conn|e]; [|discriminate].
  destruct (entry (weight_matrix_mean net) i j) as [w|e]; [|discriminate].
  destruct (decide (w < Q2Qc 0)%Qc);
    (destruct (delay_param net i j) as [[d|]|e]; try discriminate;
     destruct (entry (repeat_connect net) i j) as [r|e]; try discriminate;
     injection Hcalls as <-; eauto).
Qed.

Lemma connect_repeats_witness :
  ∃ trace,
    connect_neuronal_populations scenario_conn (decimal 1 10) 2
    = (trace, Done ())
    ∧ length (calls_between 0 1 trace) = 2%nat
    ∧ calls_between 1 1 trace = [].
Proof.
  destruct (connect_neuronal_populations scenario_conn (decimal 1 10) 2)
    as [trace result] eqn:Hrun.
  assert (result = Done ()) as ->.
  { change result with (trace, result).2. rewrite <- Hrun.
    vm_compute. reflexivity. }
  exists trace. split; [reflexivity|].
  split.
  - destruct (connect_repeats scenario_conn (decimal 1 10) 2 0 1 trace Hrun)
      as (n & Hn & Hcalls); [lia | lia |].
    injection Hn as <-.
    rewrite decide_True in Hcalls by (by vm_compute).
    destruct Hcalls as (r & c & Hr & ->). injection Hr as <-.
    apply length_replicate.
  - destruct (connect_repeats scenario_conn (decimal 1 10) 2 1 1 trace Hrun)
      as (n & Hn & Hcalls); [lia | lia |].
    injection Hn as <-.
    rewrite decide_False in Hcalls; [done|].
    intros Hle. by vm_compute in Hle.
Defined.

Section RecorderFiles.

Lemma string_app_cons (x : ascii) (p s : string) :
  String x p +:+ s = String x (p +:+ s).
Proof. reflexivity. Qed.

Lemma string_app_nil (s : string) : "" +:+ s = s.
Proof. reflexivity. Qed.

Lemma prefix_differs (x y : ascii) (p s : string) :
  x ≠ y → String.prefix (String x p) (String y s) = false.
Proof. intros Hne. simpl. by destruct (ascii_dec x y). Qed.

Lemma matches_not_prefix (p name : string) :
  String.prefix p name = false → matches p name = false.
Proof. intros H. unfold matches. by rewrite H. Qed.

End RecorderFiles.

(** X16. The analysis never reads a file of the spike recorders that the
    simulation creates: the recorders are labelled [spike_recorder_<pop>],
    and no file name that starts with such a label, alone or after one of
    the data prefixes [presim_] and [sim_] of the simulation, matches the
    pattern [spike_detector_<X>*.dat] of the merge of the spike files,
    whatever the populations and the rest of the name. *)
Theorem recorder_files_not_globbed (X pop rest prefix : string) :
  prefix ∈ "" :: data_prefixes →
  matches (datatype_name spike_detector +:+ "_" +:+ X)
          (prefix +:+ sd_label pop +:+ rest) = false.
Proof.
  intros Hprefix. apply matches_not_prefix.
  unfold data_prefixes in Hprefix. unfold sd_label, datatype_name.
  repeat (apply elem_of_cons in Hprefix as [->|Hprefix]);
    [| | |by apply elem_of_nil in Hprefix];
    rewrite ?string_app_cons, ?string_app_nil, ?string_app_cons,
      ?prefix_cons; by apply prefix_differs.
Qed.

(** The theorem on a file that the recorder of L23E writes during the
    simulation. *)
Lemma recorder_files_not_globbed_witness :
  matches "spike_detector_L23E" "sim_spike_recorder_L23E-7718-0.dat" = false.
Proof.
  apply (recorder_files_not_globbed "L23E" "L23E" "-7718-0.dat" "sim_").
  apply elem_of_cons. right. apply elem_of_cons. right.
  apply elem_of_cons. by left.
Defined.
